(** * bre_utils: the bounded blocking queue and the stream buffer

    A shallow embedding of [breutil/block_queue.hpp] (class
    [bre::BlockQueue<T>]) and [breutils/buffer.hpp] (class [bre::Buffer]),
    and the properties of the two classes stated by the specification.

    Conventions of the embedding.
    - [size_t] values are integers in [Z]; every [size_t] operation of the
      source that can leave the range is written with [wrap], reduction
      modulo [2^64].
    - A pointer into the buffer's storage is its offset from [begin()].
    - A range [(data, len)] of bytes handed to the buffer is the list of its
      [len] bytes; [std::string] and [std::string_view] are [string].
    - An operation that can throw, or whose C++ behaviour is undefined for
      some states, returns a result that says so; the state at a throw is
      part of the result.  Allocation does not fail: a vector can take any
      size that fits [size_t], and a queue any number of elements.
    - A method of the queue runs under the queue's mutex.  It is embedded as
      the function from the state at the moment the method holds the lock
      and evaluates its wait predicate to what happens then: it returns,
      throws, or goes (back) to sleep on a condition variable. *)

From Stdlib Require Import ZArith Lia String Ascii.
From stdpp Require Import base list strings.

Local Open Scope Z_scope.

(** ** Machine integers and exceptions *)

Definition size_t_mod : Z := 2 ^ 64.

(** Unsigned 64-bit wrap-around, the arithmetic of [size_t]. *)
Definition wrap (z : Z) : Z := z mod size_t_mod.

(** Conversion to [int] (32 bits, two's complement). *)
Definition to_int (z : Z) : Z := (z + 2 ^ 31) mod 2 ^ 32 - 2 ^ 31.

(** The standard exceptions the two classes throw, with their message. *)
Inductive exn : Type :=
| length_error (what : string)
| runtime_error (what : string).

(** ** buffer.hpp *)

Module buffer.

Definition kInitialSize : Z := 1024.
Definition kPrependSize : Z := 8.

Record Buffer : Type := mkBuffer {
  _buffer : list ascii;     (* std::vector<char> *)
  _readIndex : Z;           (* size_t *)
  _writeIndex : Z           (* size_t *)
}.

(** Outcome of a method of [Buffer]. *)
Inductive res (A : Type) : Type :=
| Ok (a : A) (b : Buffer)          (* returned [a], the buffer is now [b] *)
| Throw (e : exn) (b : Buffer)     (* threw [e], the buffer is [b] *)
| Undefined.                       (* undefined behaviour *)
Arguments Ok {A} a b.
Arguments Throw {A} e b.
Arguments Undefined {A}.

Definition bind {A B : Type} (m : res A) (k : A -> Buffer -> res B) : res B :=
  match m with
  | Ok a b => k a b
  | Throw e b => Throw e b
  | Undefined => Undefined
  end.

(** *** Storage primitives *)

(** [_buffer.size()] *)
Definition Capacity (b : Buffer) : Z := Z.of_nat (length (_buffer b)).

(** Reading the [n] bytes at offsets [first, first + n): the constructor
    [std::string(p, n)].  Reading outside the storage is undefined. *)
Definition read_range (buf : list ascii) (first n : Z) : option (list ascii) :=
  if (0 <=? first) && (0 <=? n) && (first + n <=? Z.of_nat (length buf))
  then Some (take (Z.to_nat n) (drop (Z.to_nat first) buf))
  else None.

(** [std::copy(d, d + len, begin() + at)] from a source [data] outside the
    storage.  Writing outside the storage is undefined. *)
Definition copy_in (buf : list ascii) (at_ : Z) (data : list ascii)
  : option (list ascii) :=
  if (0 <=? at_) && (at_ + Z.of_nat (length data) <=? Z.of_nat (length buf))
  then Some (take (Z.to_nat at_) buf ++ data
               ++ drop (Z.to_nat at_ + length data) buf)
  else None.

(** [std::copy(begin() + first, begin() + last, begin() + d_first)] inside
    the storage.  The source range and the destination range must lie in
    the storage, and [std::copy] requires that [d_first] is not in
    [first, last). *)
Definition copy_within (buf : list ascii) (first last d_first : Z)
  : option (list ascii) :=
  if (0 <=? first) && (first <=? last) && (last <=? Z.of_nat (length buf))
     && negb ((first <=? d_first) && (d_first <? last))
  then match read_range buf first (last - first) with
       | Some src => copy_in buf d_first src
       | None => None
       end
  else None.

(** *** Observers *)

Definition ReadableBytes (b : Buffer) : Z := wrap (_writeIndex b - _readIndex b).

Definition WritableBytes (b : Buffer) : Z := wrap (Capacity b - _writeIndex b).

Definition PrependableBytes (b : Buffer) : Z := _readIndex b.

(** [begin() + _readIndex], as an offset. *)
Definition Peek (b : Buffer) : Z := _readIndex b.

(** [begin() + _writeIndex], as an offset. *)
Definition BeginWrite (b : Buffer) : Z := _writeIndex b.

(** *** Construction *)

(** [Buffer(initialSize)]: [kPrependSize + initialSize] zero bytes, both
    cursors at [kPrependSize]. *)
Definition new (initialSize : Z) : Buffer :=
  mkBuffer (replicate (Z.to_nat (wrap (kPrependSize + initialSize))) Ascii.zero)
           kPrependSize kPrependSize.

(** *** Retrieval *)

Definition RetrieveAll (b : Buffer) : Buffer :=
  mkBuffer (_buffer b) kPrependSize kPrependSize.

Definition Retrieve (b : Buffer) (len : Z) : Buffer :=
  if len <? ReadableBytes b
  then mkBuffer (_buffer b) (wrap (_readIndex b + len)) (_writeIndex b)
  else RetrieveAll b.

(** [end_] is the offset of the pointer [end]. *)
Definition RetrieveUntil (b : Buffer) (end_ : Z) : Buffer :=
  if (Peek b <=? end_) && (end_ <=? BeginWrite b)
  then Retrieve b (end_ - Peek b)
  else b.

Definition RetrieveAsString (b : Buffer) (len : Z) : res string :=
  let len := if ReadableBytes b <? len then ReadableBytes b else len in
  match read_range (_buffer b) (Peek b) len with
  | Some result => Ok (string_of_list_ascii result) (Retrieve b len)
  | None => Undefined
  end.

Definition RetrieveAllAsString (b : Buffer) : res string :=
  RetrieveAsString b (ReadableBytes b).

Definition HasRead (b : Buffer) (len : Z) : Buffer := Retrieve b len.

Definition ToString (b : Buffer) : res string :=
  match read_range (_buffer b) (Peek b) (ReadableBytes b) with
  | Some s => Ok (string_of_list_ascii s) b
  | None => Undefined
  end.

(** *** Writing *)

Definition makeSpace (b : Buffer) (len : Z) : res unit :=
  if wrap (WritableBytes b + PrependableBytes b) <? wrap (len + kPrependSize)
  then
    Ok tt (mkBuffer (resize (Z.to_nat (wrap (_writeIndex b + len))) Ascii.zero
                            (_buffer b))
                    (_readIndex b) (_writeIndex b))
  else
    let readable := ReadableBytes b in
    match copy_within (_buffer b) (_readIndex b) (_writeIndex b) kPrependSize with
    | Some buf =>
        let readIndex := kPrependSize in
        Ok tt (mkBuffer buf readIndex (wrap (readIndex + readable)))
    | None => Undefined
    end.

Definition EnsureWritableBytes (b : Buffer) (len : Z) : res unit :=
  if WritableBytes b <? len then makeSpace b len else Ok tt b.

Definition HasWritten (b : Buffer) (len : Z) : Buffer :=
  if len <=? WritableBytes b
  then mkBuffer (_buffer b) (_readIndex b) (wrap (_writeIndex b + len))
  else b.

(** [Append(const char* data, size_t len)] *)
Definition Append (b : Buffer) (data : list ascii) : res unit :=
  let len := Z.of_nat (length data) in
  bind (EnsureWritableBytes b len) (fun _ b1 =>
  match copy_in (_buffer b1) (BeginWrite b1) data with
  | Some buf =>
      Ok tt (HasWritten (mkBuffer buf (_readIndex b1) (_writeIndex b1)) len)
  | None => Undefined
  end).

(** [Append(std::string_view str)] *)
Definition Append_sv (b : Buffer) (str : string) : res unit :=
  Append b (list_ascii_of_string str).

Definition Prepend (b : Buffer) (data : list ascii) : res unit :=
  let len := Z.of_nat (length data) in
  if PrependableBytes b <? len
  then Throw (length_error "Buffer::Prepend: not enough space") b
  else
    let readIndex := wrap (_readIndex b - len) in
    match copy_in (_buffer b) readIndex data with
    | Some buf => Ok tt (mkBuffer buf readIndex (_writeIndex b))
    | None => Undefined
    end.

Definition Shrink (b : Buffer) (reserve : Z) : res unit :=
  let buf :=
    replicate (Z.to_nat (wrap (wrap (kPrependSize + ReadableBytes b) + reserve)))
              Ascii.zero in
  match read_range (_buffer b) (Peek b) (BeginWrite b - Peek b) with
  | Some src =>
      match copy_in buf kPrependSize src with
      | Some buf' =>
          Ok tt (mkBuffer buf' kPrependSize (wrap (kPrependSize + ReadableBytes b)))
      | None => Undefined
      end
  | None => Undefined
  end.

(** *** The class invariant *)

(** The cursors are ordered and inside the storage, the write cursor never
    drops below the reserved prefix, and the storage has a size that fits
    [size_t].  A buffer satisfies this after its construction, and the
    methods keep it. *)
Definition wf (b : Buffer) : Prop :=
  0 <= _readIndex b <= _writeIndex b /\
  kPrependSize <= _writeIndex b <= Capacity b /\
  Capacity b < size_t_mod.

(** The readable bytes, [_buffer[_readIndex, _writeIndex)]. *)
Definition readable (b : Buffer) : list ascii :=
  take (Z.to_nat (_writeIndex b - _readIndex b))
       (drop (Z.to_nat (_readIndex b)) (_buffer b)).

(** The cursors are ordered; nothing is asked of the storage. *)
Definition cursors_ok (b : Buffer) : Prop :=
  0 <= _readIndex b <= _writeIndex b /\ _writeIndex b < size_t_mod.

(** *** Programs over the buffer *)

(** The value a method returned, if it returned. *)
Definition returned {A : Type} (r : res A) : option A :=
  match r with
  | Ok a _ => Some a
  | _ => None
  end.

(** Appending "World", prepending "Hello " and reading everything, on a
    default buffer. *)
Definition prepend_then_read : res string :=
  bind (Append_sv (new kInitialSize) "World") (fun _ b1 =>
  bind (Prepend b1 (list_ascii_of_string "Hello ")) (fun _ b2 =>
  RetrieveAllAsString b2)).

(** [Append(X)] followed by [RetrieveAsString(X.length())], on a buffer just
    constructed. *)
Definition round_trip (initialSize : Z) (X : string) : res string :=
  bind (Append_sv (new initialSize) X) (fun _ b =>
  RetrieveAsString b (Z.of_nat (String.length X))).

(** *** Searching the readable bytes *)

(** What a search returns: [nullptr], or the pointer at an offset. *)
Inductive pointer : Type :=
| nullptr
| at_offset (p : Z).

Definition is_char (c : ascii) (a : ascii) : bool := Ascii.eqb a c.

Definition CR : ascii := ascii_of_nat 13.   (* '\r' *)
Definition LF : ascii := ascii_of_nat 10.   (* '\n' *)

(** The loop [for (p = ...; p + 1 < end; ++p) if (p[0] == '\r' && p[1] == '\n')
    return p;] and the [return nullptr] after it.  [mem] is the storage from
    [p] on; reading [p[0]] or [p[1]] outside the storage is undefined
    ([None]). *)
Fixpoint crlf_loop (mem : list ascii) (p end_ : Z) : option pointer :=
  if p + 1 <? end_
  then match mem with
       | c0 :: ((c1 :: _) as mem') =>
           if is_char CR c0 && is_char LF c1
           then Some (at_offset p)
           else crlf_loop mem' (p + 1) end_
       | _ => None
       end
  else Some nullptr.

(** [FindCRLF()] *)
Definition FindCRLF (b : Buffer) : option pointer :=
  let start := Peek b in
  let end_ := BeginWrite b in
  crlf_loop (drop (Z.to_nat start) (_buffer b)) start end_.

(** [FindCRLF(const char* start)], [start] being an offset. *)
Definition FindCRLF_from (b : Buffer) (start : Z) : option pointer :=
  if (start <? Peek b) || (BeginWrite b <=? start)
  then Some nullptr
  else
    let end_ := BeginWrite b in
    crlf_loop (drop (Z.to_nat start) (_buffer b)) start end_.

(** [sv.find(c)]: the position of the first [c], [None] being [npos]. *)
Fixpoint find_char (c : ascii) (sv : list ascii) : option Z :=
  match sv with
  | [] => None
  | a :: sv' =>
      if is_char c a then Some 0
      else match find_char c sv' with
           | Some pos => Some (pos + 1)
           | None => None
           end
  end.

Definition FindEOL (b : Buffer) : option pointer :=
  match read_range (_buffer b) (Peek b) (ReadableBytes b) with
  | Some sv =>
      match find_char LF sv with
      | None => Some nullptr
      | Some pos => Some (at_offset (Peek b + pos))
      end
  | None => None
  end.

(** *** Moving *)

(** [Buffer(Buffer&& other)]: the new buffer, and [other] after the move.
    A vector that has been moved from by move construction is empty. *)
Definition move_construct (other : Buffer) : Buffer * Buffer :=
  (mkBuffer (_buffer other) (_readIndex other) (_writeIndex other),
   mkBuffer [] kPrependSize kPrependSize).

(** *** Sequences of calls *)

(** The calls a user can make on a buffer. *)
Inductive op : Type :=
| op_Retrieve (len : Z)
| op_RetrieveUntil (end_ : Z)
| op_RetrieveAll
| op_RetrieveAsString (len : Z)
| op_RetrieveAllAsString
| op_HasRead (len : Z)
| op_ToString
| op_Append (data : list ascii)
| op_EnsureWritableBytes (len : Z)
| op_HasWritten (len : Z)
| op_Prepend (data : list ascii)
| op_Shrink (reserve : Z)
| op_FindCRLF
| op_FindCRLF_from (start : Z)
| op_FindEOL.

(** The buffer after a method that returned or threw; [None] when its
    behaviour is undefined. *)
Definition after {A : Type} (r : res A) : option Buffer :=
  match r with
  | Ok _ b => Some b
  | Throw _ b => Some b
  | Undefined => None
  end.

Definition apply (b : Buffer) (o : op) : option Buffer :=
  match o with
  | op_Retrieve len => Some (Retrieve b len)
  | op_RetrieveUntil end_ => Some (RetrieveUntil b end_)
  | op_RetrieveAll => Some (RetrieveAll b)
  | op_RetrieveAsString len => after (RetrieveAsString b len)
  | op_RetrieveAllAsString => after (RetrieveAllAsString b)
  | op_HasRead len => Some (HasRead b len)
  | op_ToString => after (ToString b)
  | op_Append data => after (Append b data)
  | op_EnsureWritableBytes len => after (EnsureWritableBytes b len)
  | op_HasWritten len => Some (HasWritten b len)
  | op_Prepend data => after (Prepend b data)
  | op_Shrink reserve => after (Shrink b reserve)
  | op_FindCRLF => match FindCRLF b with Some _ => Some b | None => None end
  | op_FindCRLF_from start =>
      match FindCRLF_from b start with Some _ => Some b | None => None end
  | op_FindEOL => match FindEOL b with Some _ => Some b | None => None end
  end.

Fixpoint apply_all (b : Buffer) (os : list op) : option Buffer :=
  match os with
  | [] => Some b
  | o :: os' =>
      match apply b o with
      | Some b' => apply_all b' os'
      | None => None
      end
  end.

(** The arguments of a call are [size_t] values, and what the call makes
    the storage hold fits [size_t]. *)
Definition op_ok (b : Buffer) (o : op) : Prop :=
  match o with
  | op_Retrieve len | op_RetrieveAsString len | op_HasRead len
  | op_HasWritten len => 0 <= len
  | op_Append data => _writeIndex b + Z.of_nat (length data) < size_t_mod
  | op_EnsureWritableBytes len => 0 <= len /\ _writeIndex b + len < size_t_mod
  | op_Shrink reserve =>
      0 <= reserve /\ kPrependSize + ReadableBytes b + reserve < size_t_mod
  | _ => True
  end.

Fixpoint ops_ok (b : Buffer) (os : list op) : Prop :=
  match os with
  | [] => True
  | o :: os' =>
      op_ok b o /\
      match apply b o with
      | Some b' => ops_ok b' os'
      | None => True
      end
  end.

(** The position of the first CR LF pair of a list of bytes. *)
Fixpoint crlf_index (l : list ascii) : option nat :=
  match l with
  | c0 :: ((c1 :: _) as l') =>
      if is_char CR c0 && is_char LF c1 then Some O
      else option_map S (crlf_index l')
  | _ => None
  end.

(** A CR LF pair at index [i] of [l]. *)
Definition pair_at (l : list ascii) (i : nat) : Prop :=
  l !! i = Some CR /\ l !! S i = Some LF.

(** *** A sample buffer *)

(** The 8 bytes "ab", CR, LF, "cd", CR, LF. *)
Definition two_lines : list ascii :=
  list_ascii_of_string "ab" ++ [CR; LF] ++ list_ascii_of_string "cd" ++ [CR; LF].

(** A buffer of 16 payload bytes after [Append] of [two_lines]. *)
Definition two_lines_buffer : Buffer :=
  mkBuffer (replicate 8 Ascii.zero ++ two_lines ++ replicate 8 Ascii.zero) 8 16.

End buffer.

(** ** block_queue.hpp *)

Module block_queue.

(** The two condition variables of the class. *)
Inductive condition_variable : Type := _condConsumer | _condProducer.

(** A call of [notify_one()] or [notify_all()] on one of them. *)
Inductive notification : Type :=
| notify_one (cv : condition_variable)
| notify_all (cv : condition_variable).

Record BlockQueue (T : Type) : Type := mkBlockQueue {
  _capacity : Z;          (* size_t *)
  _isClose : bool;
  _queue : list T         (* std::queue<T>, front first *)
}.
Arguments mkBlockQueue {T} _ _ _.
Arguments _capacity {T} _.
Arguments _isClose {T} _.
Arguments _queue {T} _.

(** What a method does once it holds the mutex: it returns [a], leaving the
    queue in state [q] and having issued the notifications [ns]; or it
    throws; or its wait predicate is false and it sleeps on [cv], the
    state being untouched; or its behaviour is undefined. *)
Inductive outcome (T A : Type) : Type :=
| Returns (a : A) (q : BlockQueue T) (ns : list notification)
| Throws (e : exn) (q : BlockQueue T)
| Waits (cv : condition_variable)
| Undefined.
Arguments Returns {T A} a q ns.
Arguments Throws {T A} e q.
Arguments Waits {T A} cv.
Arguments Undefined {T A}.

(** The critical sections a thread can run on the queue.  A call that
    sleeps or throws leaves the state as it is.  [call_Push_range] is the
    locked block of the range overload of [Push], which puts the whole
    range in the queue or nothing.  The loop that follows that block in
    the source is not embedded: it assigns to [bool result] the value of
    the single-element blocking [Push], which returns [void], so that the
    overload has no well-formed instantiation.  The destructor is
    [call_Close]. *)
Inductive call (T : Type) : Type :=
| call_Clear
| call_Close
| call_SetCapacity (newCapacity : Z)
| call_Front
| call_Back
| call_TryPush (item : T)
| call_Push (item : T)
| call_Push_for (item : T) (expired : bool)
| call_TryPop
| call_Pop (item : T)
| call_Pop_for (item : T) (expired : bool)
| call_Peek (item : T) (expired : bool)
| call_Push_range (range : list T)
| call_Pop_batch (maxCount : Z)
| call_Flush
| call_NotifyAll.
Arguments call_Clear {T}.
Arguments call_Close {T}.
Arguments call_SetCapacity {T} newCapacity.
Arguments call_Front {T}.
Arguments call_Back {T}.
Arguments call_TryPush {T} item.
Arguments call_Push {T} item.
Arguments call_Push_for {T} item expired.
Arguments call_TryPop {T}.
Arguments call_Pop {T} item.
Arguments call_Pop_for {T} item expired.
Arguments call_Peek {T} item expired.
Arguments call_Push_range {T} range.
Arguments call_Pop_batch {T} maxCount.
Arguments call_Flush {T}.
Arguments call_NotifyAll {T}.

(** A push of one element, by one of the three single-element methods. *)
Inductive push_method : Type :=
| by_TryPush
| by_Push
| by_Push_for (expired : bool).

(** A pop of one element, by one of the three single-element methods. *)
Inductive pop_method : Type :=
| by_TryPop
| by_Pop
| by_Pop_for (expired : bool).

Section BlockQueue.

Context {T : Type}.

(** [BlockQueue(MaxCapacity)]; the default argument is 1024. *)
Definition new (MaxCapacity : Z) : BlockQueue T := mkBlockQueue MaxCapacity false [].

Definition with_queue (q : BlockQueue T) (l : list T) : BlockQueue T :=
  mkBlockQueue (_capacity q) (_isClose q) l.

(** *** Observers *)

Definition Size (q : BlockQueue T) : Z := Z.of_nat (length (_queue q)).

Definition Capacity (q : BlockQueue T) : Z := _capacity q.

Definition IsClosed (q : BlockQueue T) : bool := _isClose q.

Definition Empty (q : BlockQueue T) : bool :=
  match _queue q with [] => true | _ :: _ => false end.

Definition Full (q : BlockQueue T) : bool := _capacity q <=? Size q.

(** *** Life cycle and capacity *)

Definition Clear (q : BlockQueue T) : outcome T unit :=
  Returns tt (with_queue q []) [notify_all _condProducer].

Definition Close (q : BlockQueue T) : outcome T unit :=
  Returns tt (mkBlockQueue (_capacity q) true (_queue q))
          [notify_all _condProducer; notify_all _condConsumer].

Definition SetCapacity (q : BlockQueue T) (newCapacity : Z) : outcome T unit :=
  let q' := mkBlockQueue newCapacity (_isClose q) (_queue q) in
  Returns tt q' (if Size q' <? _capacity q' then [notify_all _condProducer] else []).

Definition Front (q : BlockQueue T) : outcome T T :=
  match _queue q with
  | [] => Throws (runtime_error "Queue is empty") q
  | x :: _ => Returns x q []
  end.

Definition Back (q : BlockQueue T) : outcome T T :=
  match last (_queue q) with
  | None => Throws (runtime_error "Queue is empty") q
  | Some x => Returns x q []
  end.

(** *** Pushing *)

(** [_queue.push(item)] *)
Definition enqueue (q : BlockQueue T) (item : T) : BlockQueue T :=
  with_queue q (_queue q ++ [item]).

(** The wait predicate of the producers,
    [_isClose || _queue.size() < _capacity]. *)
Definition producer_ready (q : BlockQueue T) : bool :=
  _isClose q || (Size q <? _capacity q).

(** The wait predicate of the consumers, [_isClose || !_queue.empty()]. *)
Definition consumer_ready (q : BlockQueue T) : bool :=
  _isClose q || negb (Empty q).

Definition TryPush (q : BlockQueue T) (item : T) : outcome T bool :=
  if _isClose q || (_capacity q <=? Size q)
  then Returns false q []
  else Returns true (enqueue q item) [notify_one _condConsumer].

(** [void Push(const T&)], the blocking push. *)
Definition Push (q : BlockQueue T) (item : T) : outcome T unit :=
  if producer_ready q
  then if _isClose q
       then Throws (runtime_error "Queue is closed") q
       else Returns tt (enqueue q item) [notify_one _condConsumer]
  else Waits _condProducer.

(** [bool Push(const T&, timeout)].  [expired] says whether the timeout has
    run out when the predicate is evaluated. *)
Definition Push_for (q : BlockQueue T) (item : T) (expired : bool) : outcome T bool :=
  if negb (producer_ready q)
  then if expired then Returns false q [] else Waits _condProducer
  else if _isClose q
       then Returns false q []
       else Returns true (enqueue q item) [notify_one _condConsumer].

(** *** Popping *)

Definition TryPop (q : BlockQueue T) : outcome T (option T) :=
  match _queue q with
  | [] => Returns None q []
  | x :: rest => Returns (Some x) (with_queue q rest) [notify_one _condProducer]
  end.

(** [item = std::move(_queue.front()); _queue.pop(); notify; return true]:
    the tail of the popping methods.  [front()] of an empty queue is
    undefined. *)
Definition take_front (q : BlockQueue T) : outcome T (bool * T) :=
  match _queue q with
  | x :: rest => Returns (true, x) (with_queue q rest) [notify_one _condProducer]
  | [] => Undefined
  end.

(** [bool Pop(T& item)], the blocking pop.  The result is the returned flag
    and the value of [item] after the call. *)
Definition Pop (q : BlockQueue T) (item : T) : outcome T (bool * T) :=
  if consumer_ready q
  then if _isClose q && Empty q
       then Returns (false, item) q []
       else take_front q
  else Waits _condConsumer.

(** [bool Pop(T& item, int timeout_ms)] *)
Definition Pop_for (q : BlockQueue T) (item : T) (expired : bool)
  : outcome T (bool * T) :=
  if negb (consumer_ready q)
  then if expired then Returns (false, item) q [] else Waits _condConsumer
  else if _isClose q && Empty q
       then Returns (false, item) q []
       else take_front q.

(** [bool Peek(T& item, int timeout_ms)] *)
Definition Peek (q : BlockQueue T) (item : T) (expired : bool)
  : outcome T (bool * T) :=
  if negb (consumer_ready q)
  then if expired then Returns (false, item) q [] else Waits _condConsumer
  else if _isClose q && Empty q
       then Returns (false, item) q []
       else match _queue q with
            | x :: _ => Returns (true, x) q []
            | [] => Undefined
            end.

(** *** Batches *)

(** The condition of the locked block,
    [!_isClose && (_queue.size() + count <= _capacity)], where
    [int count = std::distance(first, last)]. *)
Definition fits (q : BlockQueue T) (range : list T) : bool :=
  let count := to_int (Z.of_nat (length range)) in
  negb (_isClose q) && (wrap (Size q + count) <=? _capacity q).

(** The loop of the batch pop,
    [while (!_queue.empty() && count < maxCount) { *dest++ = front; pop; ++count; }];
    [dest] is the list of the values written so far. *)
Fixpoint drain (queue : list T) (count maxCount : Z) (dest : list T)
  : list T * Z * list T :=
  match queue with
  | [] => (queue, count, dest)
  | x :: rest =>
      if count <? maxCount
      then drain rest (wrap (count + 1)) maxCount (dest ++ [x])
      else (queue, count, dest)
  end.

(** [size_t Pop(OutputIt dest, size_t maxCount)]: the result is the count
    and the values written through [dest]. *)
Definition Pop_batch (q : BlockQueue T) (maxCount : Z) : outcome T (Z * list T) :=
  if consumer_ready q
  then
    let '(queue, count, dest) := drain (_queue q) 0 maxCount [] in
    Returns (count, dest) (with_queue q queue)
            (if 0 <? count then [notify_all _condProducer] else [])
  else Waits _condConsumer.

(** *** Waking the sleepers by hand *)

Definition Flush (q : BlockQueue T) : outcome T unit :=
  Returns tt q [notify_one _condConsumer].

Definition NotifyAll (q : BlockQueue T) : outcome T unit :=
  Returns tt q [notify_all _condConsumer; notify_all _condProducer].

(** *** Calls and the states they lead to *)

Definition state_after {A : Type} (o : outcome T A) (q : BlockQueue T) : BlockQueue T :=
  match o with
  | Returns _ q' _ => q'
  | Throws _ q' => q'
  | Waits _ => q
  | Undefined => q
  end.

Definition exec (q : BlockQueue T) (c : call T) : BlockQueue T :=
  match c with
  | call_Clear => state_after (Clear q) q
  | call_Close => state_after (Close q) q
  | call_SetCapacity n => state_after (SetCapacity q n) q
  | call_Front => state_after (Front q) q
  | call_Back => state_after (Back q) q
  | call_TryPush x => state_after (TryPush q x) q
  | call_Push x => state_after (Push q x) q
  | call_Push_for x e => state_after (Push_for q x e) q
  | call_TryPop => state_after (TryPop q) q
  | call_Pop x => state_after (Pop q x) q
  | call_Pop_for x e => state_after (Pop_for q x e) q
  | call_Peek x e => state_after (Peek q x e) q
  | call_Push_range range =>
      if fits q range then with_queue q (_queue q ++ range) else q
  | call_Pop_batch n => state_after (Pop_batch q n) q
  | call_Flush => state_after (Flush q) q
  | call_NotifyAll => state_after (NotifyAll q) q
  end.

(** The state after a sequence of calls, in the order in which they took
    the mutex. *)
Definition run (q : BlockQueue T) (cs : list (call T)) : BlockQueue T :=
  fold_left exec cs q.

(** [n] consecutive calls of the blocking [Pop] that all return [true]:
    the values they deliver, in order, and the final state. *)
Fixpoint Pop_n (n : nat) (q : BlockQueue T) (item : T)
  : option (list T * BlockQueue T) :=
  match n with
  | O => Some ([], q)
  | S n' =>
      match Pop q item with
      | Returns (true, x) q' _ =>
          match Pop_n n' q' x with
          | Some (xs, q'') => Some (x :: xs, q'')
          | None => None
          end
      | _ => None
      end
  end.

(** The state after a push by method [m] that succeeded. *)
Definition pushed (q : BlockQueue T) (m : push_method) (item : T)
  : option (BlockQueue T) :=
  match m with
  | by_TryPush =>
      match TryPush q item with Returns true q' _ => Some q' | _ => None end
  | by_Push =>
      match Push q item with Returns _ q' _ => Some q' | _ => None end
  | by_Push_for e =>
      match Push_for q item e with Returns true q' _ => Some q' | _ => None end
  end.

(** A sequence of pushes that all succeeded, and the state they lead to. *)
Fixpoint pushes (q : BlockQueue T) (ps : list (push_method * T))
  : option (BlockQueue T) :=
  match ps with
  | [] => Some q
  | (m, x) :: ps' =>
      match pushed q m x with
      | Some q' => pushes q' ps'
      | None => None
      end
  end.

(** *** The capacity bound *)

(** The range given to the batch push is one whose length fits [int], and
    the queue together with the range is not longer than [size_t] counts. *)
Definition range_ok (q : BlockQueue T) (range : list T) : Prop :=
  Z.of_nat (length range) < 2 ^ 31 /\
  Size q + Z.of_nat (length range) < size_t_mod.

(** A call that cannot break the bound [Size <= Capacity]: any call but a
    [SetCapacity] below the current size (a batch push being given a range
    that is [range_ok]). *)
Definition keeps_bound (q : BlockQueue T) (c : call T) : Prop :=
  match c with
  | call_SetCapacity newCapacity => Size q <= newCapacity
  | call_Push_range range => range_ok q range
  | _ => True
  end.

Fixpoint all_keep_bound (q : BlockQueue T) (cs : list (call T)) : Prop :=
  match cs with
  | [] => True
  | c :: cs' => keeps_bound q c /\ all_keep_bound (exec q c) cs'
  end.

(** *** Popping by any method *)

(** The value and the state after a pop by method [m] that delivered an
    element. *)
Definition popped (q : BlockQueue T) (m : pop_method) (item : T)
  : option (T * BlockQueue T) :=
  match m with
  | by_TryPop =>
      match TryPop q with Returns (Some x) q' _ => Some (x, q') | _ => None end
  | by_Pop =>
      match Pop q item with Returns (true, x) q' _ => Some (x, q') | _ => None end
  | by_Pop_for e =>
      match Pop_for q item e with
      | Returns (true, x) q' _ => Some (x, q')
      | _ => None
      end
  end.

(** A sequence of pops that all delivered: the values, in order, and the
    final state. *)
Fixpoint pops (q : BlockQueue T) (ms : list pop_method) (item : T)
  : option (list T * BlockQueue T) :=
  match ms with
  | [] => Some ([], q)
  | m :: ms' =>
      match popped q m item with
      | Some (x, q') =>
          match pops q' ms' x with
          | Some (xs, q'') => Some (x :: xs, q'')
          | None => None
          end
      | None => None
      end
  end.

End BlockQueue.

End block_queue.

(** ** Facts about the machine integers *)

Lemma wrap_small (z : Z) : 0 <= z < size_t_mod -> wrap z = z.
Proof. intros H. unfold wrap. apply Z.mod_small. exact H. Qed.

Lemma to_int_small (z : Z) : - 2 ^ 31 <= z < 2 ^ 31 -> to_int z = z.
Proof. intros H. unfold to_int. rewrite Z.mod_small; lia. Qed.

(** ** Properties of the buffer *)

Module buffer_props.
Import buffer.

(** *** Facts about the storage primitives *)

Lemma length_list_ascii_of_string (s : string) :
  length (list_ascii_of_string s) = String.length s.
Proof. induction s as [|c s IH]; simpl; [reflexivity | now rewrite IH]. Qed.

Lemma read_range_in (buf : list ascii) (first n : Z) :
  0 <= first -> 0 <= n -> first + n <= Z.of_nat (length buf) ->
  read_range buf first n = Some (take (Z.to_nat n) (drop (Z.to_nat first) buf)).
Proof.
  intros Hf Hn Hb. unfold read_range.
  destruct (0 <=? first) eqn:E1; [|lia].
  destruct (0 <=? n) eqn:E2; [|lia].
  destruct (first + n <=? Z.of_nat (length buf)) eqn:E3; [|lia].
  reflexivity.
Qed.

Lemma copy_in_in (buf : list ascii) (at_ : Z) (data : list ascii) :
  0 <= at_ -> at_ + Z.of_nat (length data) <= Z.of_nat (length buf) ->
  copy_in buf at_ data
  = Some (take (Z.to_nat at_) buf ++ data
            ++ drop (Z.to_nat at_ + length data) buf).
Proof.
  intros Ha Hb. unfold copy_in.
  destruct (0 <=? at_) eqn:E1; [|lia].
  destruct (at_ + Z.of_nat (length data) <=? Z.of_nat (length buf)) eqn:E2; [|lia].
  reflexivity.
Qed.

Section Splice.
Context {A : Type}.
Implicit Types (buf data : list A) (a n : nat).

(** Overwriting [length data] cells of [buf] from index [a] keeps the
    length of [buf]. *)
Lemma splice_length buf a data :
  (a + length data <= length buf)%nat ->
  length (take a buf ++ data ++ drop (a + length data) buf) = length buf.
Proof.
  intros H. rewrite !length_app, length_take, length_drop. lia.
Qed.

Lemma splice_drop buf a data :
  (a <= length buf)%nat ->
  drop a (take a buf ++ data ++ drop (a + length data) buf)
  = data ++ drop (a + length data) buf.
Proof.
  intros H. rewrite drop_app_length'; [reflexivity|].
  rewrite length_take. lia.
Qed.

Lemma splice_take buf a data n :
  (n <= a)%nat -> (a <= length buf)%nat ->
  take n (take a buf ++ data ++ drop (a + length data) buf) = take n buf.
Proof.
  intros Hn Ha. rewrite take_app_le by (rewrite length_take; lia).
  rewrite take_take. f_equal. lia.
Qed.

(** The cells below [a], from [n] on, are those of [buf]. *)
Lemma splice_drop_below buf a data n :
  (n <= a)%nat -> (a <= length buf)%nat ->
  drop n (take a buf ++ data ++ drop (a + length data) buf)
  = take (a - n) (drop n buf) ++ data ++ drop (a + length data) buf.
Proof.
  intros Hn Ha. rewrite drop_app_le by (rewrite length_take; lia).
  f_equal. apply skipn_firstn_comm.
Qed.
End Splice.

Lemma readable_length (b : Buffer) :
  wf b -> Z.of_nat (length (readable b)) = _writeIndex b - _readIndex b.
Proof.
  intros (Hr & Hw & Hc). unfold readable, Capacity in *.
  rewrite length_take, length_drop. lia.
Qed.

Lemma ReadableBytes_wf (b : Buffer) :
  wf b -> ReadableBytes b = _writeIndex b - _readIndex b.
Proof.
  intros (Hr & Hw & Hc). unfold ReadableBytes. apply wrap_small.
  unfold size_t_mod in *. lia.
Qed.

Lemma WritableBytes_wf (b : Buffer) :
  wf b -> WritableBytes b = Capacity b - _writeIndex b.
Proof.
  intros (Hr & Hw & Hc). unfold WritableBytes. apply wrap_small.
  unfold size_t_mod in *. lia.
Qed.

Lemma wf_new (initialSize : Z) :
  0 <= initialSize -> kPrependSize + initialSize < size_t_mod ->
  wf (new initialSize).
Proof.
  intros H0 H1. unfold wf, new, Capacity, kPrependSize in *. simpl.
  rewrite length_replicate, wrap_small by lia. lia.
Qed.

Lemma readable_new (initialSize : Z) : readable (new initialSize) = [].
Proof. unfold readable, new. simpl. rewrite Z.sub_diag. reflexivity. Qed.

(** *** HasWritten *)

(** C10. [HasWritten(len)] with [len > WritableBytes()] changes nothing, in
    every buffer state, and being a total function of the state it reports
    no error; with [len <= WritableBytes()] it moves the write cursor, and
    only the write cursor, forward by [len] (in [size_t] arithmetic, which
    for a buffer that satisfies the class invariant is exact). *)
Theorem HasWritten_guarded (b : Buffer) (len : Z) :
  (WritableBytes b < len -> HasWritten b len = b) /\
  (len <= WritableBytes b ->
   HasWritten b len
   = mkBuffer (_buffer b) (_readIndex b) (wrap (_writeIndex b + len))) /\
  (wf b -> 0 <= len <= WritableBytes b ->
   _writeIndex (HasWritten b len) = _writeIndex b + len /\
   readable (HasWritten b len) = readable b ++ take (Z.to_nat len) (drop (Z.to_nat (_writeIndex b)) (_buffer b)) /\
   wf (HasWritten b len)).
Proof.
  unfold HasWritten. split; [|split].
  - intros H. destruct (len <=? WritableBytes b) eqn:E; [lia | reflexivity].
  - intros H. destruct (len <=? WritableBytes b) eqn:E; [reflexivity | lia].
  - intros Hwf Hlen. destruct (len <=? WritableBytes b) eqn:E; [|lia].
    rewrite (WritableBytes_wf b Hwf) in *. destruct Hwf as (Hr & Hw & Hc).
    unfold readable, wf, Capacity in *. simpl.
    rewrite wrap_small by lia. split; [reflexivity|]. split; [|lia].
    replace (Z.to_nat (_writeIndex b + len - _readIndex b))
      with (Z.to_nat (_writeIndex b - _readIndex b) + Z.to_nat len)%nat by lia.
    rewrite <- take_take_drop. f_equal. rewrite drop_drop.
    f_equal. f_equal. lia.
Qed.

(** Instance of [HasWritten_guarded] on the default buffer: 2000 bytes do
    not fit in its 1024 writable bytes and change nothing, 4 bytes do. *)
Lemma HasWritten_guarded_witness :
  let b := new kInitialSize in
  WritableBytes b = 1024 /\
  HasWritten b 2000 = b /\
  _writeIndex (HasWritten b 4) = _writeIndex b + 4.
Proof.
  intros b. split; [reflexivity|].
  destruct (HasWritten_guarded b 2000) as (Hno & _ & _).
  destruct (HasWritten_guarded b 4) as (_ & _ & Hadv).
  split.
  - apply Hno. vm_compute. reflexivity.
  - apply Hadv; vm_compute; intuition congruence.
Defined.

(** *** Retrieve *)

Lemma wf_RetrieveAll (b : Buffer) : wf b -> wf (RetrieveAll b).
Proof.
  intros (Hr & Hw & Hc). unfold wf, RetrieveAll, Capacity, kPrependSize in *.
  simpl. lia.
Qed.

Lemma wf_cursors_ok (b : Buffer) : wf b -> cursors_ok b.
Proof. intros (Hr & Hw & Hc). unfold cursors_ok. lia. Qed.

Lemma ReadableBytes_cursors (b : Buffer) :
  cursors_ok b -> ReadableBytes b = _writeIndex b - _readIndex b.
Proof.
  intros (Hr & Hw). unfold ReadableBytes. apply wrap_small. lia.
Qed.

Lemma Retrieve_lt (b : Buffer) (len : Z) :
  cursors_ok b -> 0 <= len < ReadableBytes b ->
  Retrieve b len = mkBuffer (_buffer b) (_readIndex b + len) (_writeIndex b).
Proof.
  intros Hok Hlen. unfold Retrieve.
  destruct (len <? ReadableBytes b) eqn:E; [|lia].
  rewrite (ReadableBytes_cursors b Hok) in Hlen. destruct Hok as (Hr & Hw).
  rewrite wrap_small; [reflexivity | lia].
Qed.

Lemma Retrieve_ge (b : Buffer) (len : Z) :
  ReadableBytes b <= len -> Retrieve b len = RetrieveAll b.
Proof.
  intros Hlen. unfold Retrieve.
  destruct (len <? ReadableBytes b) eqn:E; [lia | reflexivity].
Qed.

Lemma wf_Retrieve (b : Buffer) (len : Z) :
  wf b -> 0 <= len -> wf (Retrieve b len).
Proof.
  intros Hwf Hlen.
  destruct (Z.lt_ge_cases len (ReadableBytes b)) as [Hlt | Hge].
  - rewrite (Retrieve_lt b len (wf_cursors_ok b Hwf)) by lia.
    rewrite (ReadableBytes_wf b Hwf) in Hlt.
    destruct Hwf as (Hr & Hw & Hc). unfold wf, Capacity in *. simpl. lia.
  - rewrite (Retrieve_ge b len Hge). apply wf_RetrieveAll, Hwf.
Qed.

(** C8. For a buffer whose cursors are ordered, [Retrieve(len)] with
    [len < ReadableBytes()] moves the read cursor forward by [len]; with
    [len >= ReadableBytes()] it is [RetrieveAll()] and puts both cursors
    at [kPrependSize].  Either way the readable bytes lose their first
    [min(len, ReadableBytes())] bytes, and the class invariant is kept.
    After [Retrieve(ReadableBytes())] nothing is readable, and a further
    [Retrieve] of any length leaves the buffer as it is. *)
Theorem Retrieve_clamps (b : Buffer) (len : Z) :
  cursors_ok b -> 0 <= len ->
  (len < ReadableBytes b ->
   Retrieve b len = mkBuffer (_buffer b) (_readIndex b + len) (_writeIndex b)) /\
  (ReadableBytes b <= len ->
   Retrieve b len = RetrieveAll b /\
   _readIndex (Retrieve b len) = kPrependSize /\
   _writeIndex (Retrieve b len) = kPrependSize) /\
  readable (Retrieve b len)
  = drop (Z.to_nat (Z.min len (ReadableBytes b))) (readable b) /\
  ReadableBytes (Retrieve b len)
  = ReadableBytes b - Z.min len (ReadableBytes b) /\
  (wf b -> wf (Retrieve b len)) /\
  ReadableBytes (Retrieve b (ReadableBytes b)) = 0 /\
  (forall m : Z, 0 <= m ->
     Retrieve (Retrieve b (ReadableBytes b)) m = Retrieve b (ReadableBytes b) /\
     ReadableBytes (Retrieve (Retrieve b (ReadableBytes b)) m) = 0).
Proof.
  intros Hok Hlen.
  assert (Hfull : Retrieve b (ReadableBytes b) = RetrieveAll b)
    by (apply Retrieve_ge; lia).
  assert (Hzero : ReadableBytes (RetrieveAll b) = 0) by reflexivity.
  assert (Hidem : forall m : Z, 0 <= m ->
            Retrieve (RetrieveAll b) m = RetrieveAll b).
  { intros m Hm. rewrite Retrieve_ge; [reflexivity | rewrite Hzero; exact Hm]. }
  split; [intros H; apply Retrieve_lt; [exact Hok | lia]|].
  split; [intros H; rewrite (Retrieve_ge b len H); auto|].
  rewrite Hfull.
  cut (readable (Retrieve b len)
       = drop (Z.to_nat (Z.min len (ReadableBytes b))) (readable b) /\
       ReadableBytes (Retrieve b len)
       = ReadableBytes b - Z.min len (ReadableBytes b)).
  { intros (H1 & H2). repeat (split; [assumption|]).
    split; [intros Hwf; apply wf_Retrieve; assumption|].
    split; [exact Hzero|].
    intros m Hm. rewrite (Hidem m Hm). auto. }
  clear Hfull Hidem.
  pose proof (ReadableBytes_cursors b Hok) as HR.
  destruct (Z.lt_ge_cases len (ReadableBytes b)) as [Hlt | Hge].
  - rewrite (Retrieve_lt b len Hok) by lia.
    rewrite Z.min_l by lia. rewrite HR in *. destruct Hok as (Hr & Hw).
    split.
    + unfold readable. simpl. rewrite skipn_firstn_comm, drop_drop.
      f_equal; [lia | f_equal; lia].
    + unfold ReadableBytes. simpl. rewrite wrap_small; lia.
  - rewrite (Retrieve_ge b len Hge). rewrite Z.min_r by lia.
    split.
    + unfold readable at 1. simpl. rewrite Z.sub_diag. simpl.
      symmetry. apply drop_ge. unfold readable.
      rewrite length_take, HR. lia.
    + rewrite Hzero. lia.
Qed.

(** Instance of [Retrieve_clamps]: the default buffer holding 5 written
    bytes, from which 1000 bytes are retrieved. *)
Lemma Retrieve_clamps_witness :
  let b := HasWritten (new kInitialSize) 5 in
  ReadableBytes b = 5 /\
  Retrieve b 1000 = RetrieveAll b /\
  ReadableBytes (Retrieve b 1000) = 0.
Proof.
  intros b.
  assert (Hwf : cursors_ok b) by (vm_compute; intuition congruence).
  assert (H5 : ReadableBytes b = 5) by (vm_compute; reflexivity).
  split; [exact H5|].
  destruct (Retrieve_clamps b 1000 Hwf ltac:(lia)) as (_ & Hge & _ & HR & _).
  split.
  - apply Hge. rewrite H5. lia.
  - rewrite HR, H5. reflexivity.
Defined.

(** *** EnsureWritableBytes and makeSpace *)

Lemma EnsureWritableBytes_enough (b : Buffer) (len : Z) :
  len <= WritableBytes b -> EnsureWritableBytes b len = Ok tt b.
Proof.
  intros H. unfold EnsureWritableBytes.
  destruct (WritableBytes b <? len) eqn:E; [lia | reflexivity].
Qed.

(** The growing branch of [makeSpace]. *)
Lemma makeSpace_grow (b : Buffer) (len : Z) :
  wf b -> 0 <= len -> _writeIndex b + len < size_t_mod ->
  WritableBytes b + PrependableBytes b < len + kPrependSize ->
  makeSpace b len
  = Ok tt (mkBuffer (resize (Z.to_nat (_writeIndex b + len)) Ascii.zero (_buffer b))
                    (_readIndex b) (_writeIndex b)).
Proof.
  intros Hwf Hlen Hfit Hcond. unfold makeSpace.
  rewrite (WritableBytes_wf b Hwf) in *. unfold PrependableBytes in *.
  destruct Hwf as (Hr & Hw & Hc). unfold kPrependSize in *.
  rewrite !wrap_small by lia.
  destruct (Capacity b - _writeIndex b + _readIndex b <? len + 8) eqn:E; [|lia].
  reflexivity.
Qed.

(** The compacting branch of [makeSpace], reached from
    [EnsureWritableBytes]. *)
Lemma makeSpace_compact (b : Buffer) (len : Z) :
  wf b -> 0 <= len -> WritableBytes b < len ->
  len + kPrependSize <= WritableBytes b + PrependableBytes b ->
  makeSpace b len
  = Ok tt (mkBuffer (take (Z.to_nat kPrependSize) (_buffer b) ++ readable b
                       ++ drop (Z.to_nat kPrependSize + length (readable b))
                               (_buffer b))
                    kPrependSize (kPrependSize + ReadableBytes b)).
Proof.
  intros Hwf Hlen Hlt Hcond. unfold makeSpace.
  pose proof (readable_length b Hwf) as HL.
  rewrite (ReadableBytes_wf b Hwf).
  rewrite (WritableBytes_wf b Hwf) in *. unfold PrependableBytes in *.
  destruct Hwf as (Hr & Hw & Hc). unfold kPrependSize, Capacity in *.
  rewrite !wrap_small by lia.
  destruct (Z.of_nat (length (_buffer b)) - _writeIndex b + _readIndex b
            <? len + 8) eqn:E; [lia|].
  unfold copy_within.
  destruct (0 <=? _readIndex b) eqn:E1; [|lia].
  destruct (_readIndex b <=? _writeIndex b) eqn:E2; [|lia].
  destruct (_writeIndex b <=? Z.of_nat (length (_buffer b))) eqn:E3; [|lia].
  destruct (_readIndex b <=? 8) eqn:E4; [lia|]. simpl.
  rewrite read_range_in by lia. fold (readable b).
  rewrite copy_in_in by lia. rewrite wrap_small by lia. reflexivity.
Qed.

(** Compaction keeps the readable bytes and frees the bytes before them. *)
Lemma makeSpace_compact_keeps (b : Buffer) (len : Z) :
  wf b -> 0 <= len -> WritableBytes b < len ->
  len + kPrependSize <= WritableBytes b + PrependableBytes b ->
  exists b' : Buffer,
    makeSpace b len = Ok tt b' /\
    Capacity b' = Capacity b /\
    _readIndex b' = kPrependSize /\
    _writeIndex b' = kPrependSize + ReadableBytes b /\
    take (length (readable b)) (drop (Z.to_nat kPrependSize) (_buffer b'))
    = readable b /\
    readable b' = readable b /\
    len <= WritableBytes b' /\
    wf b'.
Proof.
  intros Hwf Hlen Hlt Hc.
  rewrite makeSpace_compact by assumption.
  eexists. split; [reflexivity|].
  pose proof (readable_length b Hwf) as HL.
  rewrite (ReadableBytes_wf b Hwf), (WritableBytes_wf b Hwf) in *.
  unfold PrependableBytes in *.
  destruct Hwf as (Hr & Hw & Hcap). unfold kPrependSize, Capacity in *.
  assert (Hlen' : (Z.to_nat 8 + length (readable b)
                   <= length (_buffer b))%nat) by lia.
  assert (Hmid : take (length (readable b))
                   (drop (Z.to_nat 8)
                      (take (Z.to_nat 8) (_buffer b) ++ readable b
                         ++ drop (Z.to_nat 8 + length (readable b)) (_buffer b)))
                 = readable b).
  { rewrite splice_drop by lia. apply take_app_length. }
  cbn [_buffer _readIndex _writeIndex]. rewrite splice_length by exact Hlen'.
  repeat (split; [reflexivity|]). split; [exact Hmid|].
  unfold readable at 1, WritableBytes, wf, Capacity, kPrependSize.
  cbn [_buffer _readIndex _writeIndex].
  rewrite splice_length by exact Hlen'.
  replace (Z.to_nat (8 + (_writeIndex b - _readIndex b) - 8))
    with (length (readable b)) by lia.
  split; [exact Hmid|]. rewrite wrap_small by lia. lia.
Qed.

(** Growth keeps the storage and the cursors and adds bytes at the end. *)
Lemma makeSpace_grow_keeps (b : Buffer) (len : Z) :
  wf b -> 0 <= len -> _writeIndex b + len < size_t_mod ->
  WritableBytes b < len ->
  WritableBytes b + PrependableBytes b < len + kPrependSize ->
  exists b' : Buffer,
    makeSpace b len = Ok tt b' /\
    Capacity b' = _writeIndex b + len /\
    _readIndex b' = _readIndex b /\
    _writeIndex b' = _writeIndex b /\
    take (length (_buffer b)) (_buffer b') = _buffer b /\
    readable b' = readable b /\
    len <= WritableBytes b' /\
    wf b'.
Proof.
  intros Hwf Hlen Hfit Hlt Hg.
  rewrite makeSpace_grow by assumption.
  eexists. split; [reflexivity|].
  rewrite (WritableBytes_wf b Hwf) in *. unfold PrependableBytes in *.
  destruct Hwf as (Hr & Hw & Hcap). unfold kPrependSize, Capacity in *.
  assert (Hge : (length (_buffer b) <= Z.to_nat (_writeIndex b + len))%nat)
    by lia.
  cbn [_buffer _readIndex _writeIndex]. rewrite length_resize.
  split; [lia|]. repeat (split; [reflexivity|]).
  split; [rewrite resize_ge by exact Hge; apply take_app_length|].
  split; [|split].
  - unfold readable. cbn [_buffer _readIndex _writeIndex].
    rewrite resize_ge by exact Hge.
    rewrite drop_app_le by lia. apply take_app_le.
    rewrite length_drop. lia.
  - unfold WritableBytes, Capacity. cbn [_buffer _readIndex _writeIndex].
    rewrite length_resize. rewrite wrap_small by lia. lia.
  - unfold wf, Capacity, kPrependSize. cbn [_buffer _readIndex _writeIndex].
    rewrite length_resize. lia.
Qed.

(** C5. [EnsureWritableBytes(len)] on a buffer with fewer than [len]
    writable bytes, [len] being such that [_writeIndex + len] is a size:
    when [WritableBytes() + PrependableBytes() - kPrependSize >= len], and
    only then, the storage keeps its size and the readable bytes are moved
    down to offset [kPrependSize], where the read cursor now is; otherwise
    the storage grows (by zero bytes at its end) to exactly
    [_writeIndex + len] bytes and the cursors stay.  In both cases the readable bytes are the same
    as before, at least [len] bytes are writable, and the class invariant
    holds. *)
Theorem EnsureWritableBytes_makes_space (b : Buffer) (len : Z) :
  wf b -> 0 <= len -> _writeIndex b + len < size_t_mod ->
  WritableBytes b < len ->
  exists b' : Buffer,
    EnsureWritableBytes b len = Ok tt b' /\
    (len <= WritableBytes b + PrependableBytes b - kPrependSize ->
     Capacity b' = Capacity b /\
     _readIndex b' = kPrependSize /\
     _writeIndex b' = kPrependSize + ReadableBytes b /\
     take (length (readable b)) (drop (Z.to_nat kPrependSize) (_buffer b'))
     = readable b) /\
    (WritableBytes b + PrependableBytes b - kPrependSize < len ->
     Capacity b' = _writeIndex b + len /\
     _readIndex b' = _readIndex b /\
     _writeIndex b' = _writeIndex b /\
     take (length (_buffer b)) (_buffer b') = _buffer b) /\
    (Capacity b' = Capacity b <->
     len <= WritableBytes b + PrependableBytes b - kPrependSize) /\
    readable b' = readable b /\
    len <= WritableBytes b' /\
    wf b'.
Proof.
  intros Hwf Hlen Hfit Hlt. unfold EnsureWritableBytes.
  destruct (WritableBytes b <? len) eqn:E; [clear E | lia].
  pose proof (WritableBytes_wf b Hwf) as HW.
  destruct (Z.le_gt_cases len
              (WritableBytes b + PrependableBytes b - kPrependSize))
    as [Hc | Hg].
  - destruct (makeSpace_compact_keeps b len Hwf Hlen Hlt)
      as (b' & HM & Hcap & Hr & Hw & Hmid & Hrd & Hwr & Hwf'); [lia|].
    exists b'. split; [exact HM|]. split; [auto|]. split; [lia|].
    split; [tauto | auto].
  - destruct (makeSpace_grow_keeps b len Hwf Hlen Hfit Hlt)
      as (b' & HM & Hcap & Hr & Hw & Hold & Hrd & Hwr & Hwf'); [lia|].
    exists b'. split; [exact HM|]. split; [lia|]. split; [auto|].
    split; [|auto]. split; intros H; lia.
Qed.

(** Instance of [EnsureWritableBytes_makes_space]: a buffer of 16 payload
    bytes, all written and 10 of them retrieved, asked for 5 writable
    bytes, compacts. *)
Lemma EnsureWritableBytes_makes_space_witness :
  let b := Retrieve (HasWritten (new 16) 16) 10 in
  WritableBytes b = 0 /\ PrependableBytes b = 18 /\
  exists b' : Buffer,
    EnsureWritableBytes b 5 = Ok tt b' /\
    _readIndex b' = kPrependSize /\ readable b' = readable b /\
    5 <= WritableBytes b'.
Proof.
  intros b.
  assert (Hwf : wf b) by (vm_compute; intuition congruence).
  split; [reflexivity|]. split; [reflexivity|].
  destruct (EnsureWritableBytes_makes_space b 5 Hwf)
    as (b' & HE & Hcompact & _ & _ & Hrd & Hwr & _).
  - lia.
  - vm_compute. reflexivity.
  - vm_compute. reflexivity.
  - exists b'. split; [exact HE|]. split; [|split; assumption].
    apply Hcompact. vm_compute. congruence.
Defined.

(** [EnsureWritableBytes] always leaves at least [len] writable bytes and
    the readable bytes as they were. *)
Lemma EnsureWritableBytes_ensures (b : Buffer) (len : Z) :
  wf b -> 0 <= len -> _writeIndex b + len < size_t_mod ->
  exists b' : Buffer,
    EnsureWritableBytes b len = Ok tt b' /\
    readable b' = readable b /\ len <= WritableBytes b' /\ wf b'.
Proof.
  intros Hwf Hlen Hfit.
  destruct (Z.lt_ge_cases (WritableBytes b) len) as [Hlt | Hge].
  - unfold EnsureWritableBytes.
    destruct (WritableBytes b <? len) eqn:E; [clear E | lia].
    destruct (Z.le_gt_cases (len + kPrependSize)
                (WritableBytes b + PrependableBytes b)) as [Hc | Hg].
    + destruct (makeSpace_compact_keeps b len Hwf Hlen Hlt Hc)
        as (b' & HM & _ & _ & _ & _ & Hrd & Hwr & Hwf').
      exists b'. auto.
    + destruct (makeSpace_grow_keeps b len Hwf Hlen Hfit Hlt)
        as (b' & HM & _ & _ & _ & _ & Hrd & Hwr & Hwf'); [lia|].
      exists b'. auto.
  - exists b. rewrite EnsureWritableBytes_enough by exact Hge. auto.
Qed.

(** *** Prepend *)

Lemma Prepend_fits (b : Buffer) (data : list ascii) :
  wf b -> Z.of_nat (length data) <= PrependableBytes b ->
  Prepend b data
  = Ok tt (mkBuffer
             (take (Z.to_nat (_readIndex b - Z.of_nat (length data))) (_buffer b)
                ++ data ++ drop (Z.to_nat (_readIndex b)) (_buffer b))
             (_readIndex b - Z.of_nat (length data)) (_writeIndex b)).
Proof.
  intros (Hr & Hw & Hc) Hlen. unfold Prepend, PrependableBytes, Capacity in *.
  destruct (_readIndex b <? Z.of_nat (length data)) eqn:E; [lia|].
  rewrite wrap_small by lia. rewrite copy_in_in by lia.
  do 5 f_equal. lia.
Qed.

(** C6. [Prepend(data, len)] with [len > PrependableBytes()] throws
    [std::length_error] and leaves the buffer, whatever its state, as it
    was.  Otherwise, for a buffer that satisfies the class invariant, it
    moves the read cursor back by [len] and stores the [len] bytes right
    before the bytes that were readable, touching nothing else.  Appending
    "World" to a new buffer, prepending the 6 bytes "Hello " and retrieving
    everything as a string gives "Hello World". *)
Theorem Prepend_checks_space (b : Buffer) (data : list ascii) :
  (PrependableBytes b < Z.of_nat (length data) ->
   Prepend b data
   = Throw (length_error "Buffer::Prepend: not enough space") b) /\
  (wf b -> Z.of_nat (length data) <= PrependableBytes b ->
   exists b' : Buffer,
     Prepend b data = Ok tt b' /\
     _readIndex b' = _readIndex b - Z.of_nat (length data) /\
     _writeIndex b' = _writeIndex b /\
     readable b' = data ++ readable b /\
     take (Z.to_nat (_readIndex b')) (_buffer b')
     = take (Z.to_nat (_readIndex b')) (_buffer b) /\
     drop (Z.to_nat (_readIndex b)) (_buffer b')
     = drop (Z.to_nat (_readIndex b)) (_buffer b) /\
     wf b') /\
  returned prepend_then_read = Some "Hello World"%string.
Proof.
  split; [|split].
  - intros H. unfold Prepend.
    destruct (PrependableBytes b <? Z.of_nat (length data)) eqn:E;
      [reflexivity | lia].
  - intros Hwf Hlen. rewrite (Prepend_fits b data Hwf Hlen).
    eexists. split; [reflexivity|]. cbn [_buffer _readIndex _writeIndex].
    destruct Hwf as (Hr & Hw & Hc). unfold PrependableBytes, Capacity in *.
    set (a := Z.to_nat (_readIndex b - Z.of_nat (length data))).
    assert (Ha : Z.to_nat (_readIndex b) = (a + length data)%nat) by lia.
    rewrite Ha.
    split; [reflexivity|]. split; [reflexivity|].
    split; [|split; [|split]].
    + unfold readable. cbn [_buffer _readIndex _writeIndex]. fold a.
      rewrite splice_drop by lia. rewrite Ha.
      replace (Z.to_nat (_writeIndex b - (_readIndex b - Z.of_nat (length data))))
        with (length data + Z.to_nat (_writeIndex b - _readIndex b))%nat by lia.
      apply take_app_add'. reflexivity.
    + apply splice_take; lia.
    + rewrite app_assoc. apply drop_app_length'.
      rewrite length_app, length_take. lia.
    + unfold wf, Capacity. cbn [_buffer _readIndex _writeIndex].
      rewrite splice_length by lia. lia.
  - vm_compute. reflexivity.
Qed.

(** Instance of [Prepend_checks_space]: on a new buffer, whose reserved
    prefix has 8 bytes, 19 bytes are refused and 6 bytes are stored. *)
Lemma Prepend_checks_space_witness :
  let b := new kInitialSize in
  let big := list_ascii_of_string "TooLargeForPrepend!" in
  let hello := list_ascii_of_string "Hello " in
  Prepend b big = Throw (length_error "Buffer::Prepend: not enough space") b /\
  exists b' : Buffer,
    Prepend b hello = Ok tt b' /\ _readIndex b' = 2 /\ readable b' = hello.
Proof.
  intros b big hello.
  assert (Hwf : wf b) by (vm_compute; intuition congruence).
  destruct (Prepend_checks_space b big) as (Hthrow & _ & _).
  destruct (Prepend_checks_space b hello) as (_ & Hok & _).
  split.
  - apply Hthrow. vm_compute. reflexivity.
  - destruct (Hok Hwf) as (b' & HP & Hr & _ & Hrd & _).
    + vm_compute. congruence.
    + exists b'. split; [exact HP|]. split; [exact Hr|].
      rewrite Hrd. unfold b. rewrite readable_new. apply app_nil_r.
Defined.

(** *** Append and the round trip *)

(** [Append] adds the bytes at the end of the readable bytes. *)
Lemma Append_readable (b : Buffer) (data : list ascii) :
  wf b -> _writeIndex b + Z.of_nat (length data) < size_t_mod ->
  exists b' : Buffer,
    Append b data = Ok tt b' /\ readable b' = readable b ++ data /\ wf b'.
Proof.
  intros Hwf Hfit. unfold Append.
  destruct (EnsureWritableBytes_ensures b (Z.of_nat (length data)) Hwf)
    as (b1 & HE & Hrd & Hwr & Hwf1); [lia | exact Hfit |].
  rewrite HE. cbn [bind]. rewrite <- Hrd. clear HE Hrd Hwf Hfit b.
  rewrite (WritableBytes_wf b1 Hwf1) in Hwr.
  destruct Hwf1 as (Hr & Hw & Hc). unfold BeginWrite, Capacity in *.
  rewrite copy_in_in by lia.
  set (w := Z.to_nat (_writeIndex b1)).
  assert (Hlen : (w + length data <= length (_buffer b1))%nat) by lia.
  eexists. split; [reflexivity|].
  unfold HasWritten, WritableBytes, Capacity.
  cbn [_buffer _readIndex _writeIndex].
  rewrite splice_length by exact Hlen. rewrite !wrap_small by lia.
  destruct (Z.of_nat (length data)
            <=? Z.of_nat (length (_buffer b1)) - _writeIndex b1) eqn:E; [|lia].
  split.
  - unfold readable. cbn [_buffer _readIndex _writeIndex].
    rewrite splice_drop_below by lia.
    replace (w - Z.to_nat (_readIndex b1))%nat
      with (Z.to_nat (_writeIndex b1 - _readIndex b1)) by lia.
    rewrite app_assoc.
    apply take_app_length'. rewrite length_app, length_take, length_drop. lia.
  - unfold wf, Capacity. cbn [_buffer _readIndex _writeIndex].
    rewrite splice_length by exact Hlen. lia.
Qed.

(** [RetrieveAsString] of everything readable returns the readable bytes
    and empties the buffer. *)
Lemma RetrieveAsString_all (b : Buffer) :
  wf b ->
  RetrieveAsString b (ReadableBytes b)
  = Ok (string_of_list_ascii (readable b)) (RetrieveAll b).
Proof.
  intros Hwf. unfold RetrieveAsString.
  destruct (ReadableBytes b <? ReadableBytes b) eqn:E; [lia|].
  rewrite Retrieve_ge by lia. rewrite (ReadableBytes_wf b Hwf).
  destruct Hwf as (Hr & Hw & Hc). unfold Peek, Capacity in *.
  rewrite read_range_in by lia. reflexivity.
Qed.

(** C7. On a buffer just constructed with any initial size, appending a
    string [X] and retrieving [X.length()] bytes as a string returns [X]
    (and leaves nothing readable), provided the sizes involved,
    [kPrependSize + initialSize] and [kPrependSize + X.length()], fit
    [size_t]. *)
Theorem Append_RetrieveAsString_round_trip (initialSize : Z) (X : string) :
  0 <= initialSize -> kPrependSize + initialSize < size_t_mod ->
  kPrependSize + Z.of_nat (String.length X) < size_t_mod ->
  exists b' : Buffer,
    round_trip initialSize X = Ok X b' /\ ReadableBytes b' = 0.
Proof.
  intros H0 Hinit HX. unfold round_trip, Append_sv.
  pose proof (wf_new initialSize H0 Hinit) as Hwf.
  destruct (Append_readable (new initialSize) (list_ascii_of_string X) Hwf)
    as (b1 & HA & Hrd & Hwf1).
  { rewrite length_list_ascii_of_string. exact HX. }
  rewrite HA. cbn [bind]. rewrite readable_new in Hrd. simpl in Hrd.
  assert (HR : ReadableBytes b1 = Z.of_nat (String.length X)).
  { rewrite (ReadableBytes_wf b1 Hwf1), <- (readable_length b1 Hwf1), Hrd.
    now rewrite length_list_ascii_of_string. }
  rewrite <- HR, (RetrieveAsString_all b1 Hwf1), Hrd.
  rewrite string_of_list_ascii_of_string.
  exists (RetrieveAll b1). split; reflexivity.
Qed.

(** Instance of [Append_RetrieveAsString_round_trip]: a buffer of 4 payload
    bytes, which has to grow to take the 13 bytes of the string. *)
Lemma Append_RetrieveAsString_round_trip_witness :
  exists b' : Buffer,
    round_trip 4 "Hello, World!" = Ok "Hello, World!"%string b' /\
    ReadableBytes b' = 0.
Proof.
  apply (Append_RetrieveAsString_round_trip 4 "Hello, World!"); vm_compute;
    congruence.
Defined.

(** *** Shrink *)

(** [Shrink(reserve)] keeps the readable bytes and the class invariant,
    and leaves exactly [reserve] writable bytes. *)
Lemma Shrink_readable (b : Buffer) (reserve : Z) :
  wf b -> 0 <= reserve ->
  kPrependSize + ReadableBytes b + reserve < size_t_mod ->
  exists b' : Buffer,
    Shrink b reserve = Ok tt b' /\
    readable b' = readable b /\
    Capacity b' = kPrependSize + ReadableBytes b + reserve /\
    wf b'.
Proof.
  intros Hwf Hres Hfit. unfold Shrink.
  pose proof (readable_length b Hwf) as HL.
  rewrite (ReadableBytes_wf b Hwf) in *.
  destruct Hwf as (Hr & Hw & Hc).
  unfold Peek, BeginWrite, Capacity, kPrependSize in *.
  rewrite (wrap_small (8 + (_writeIndex b - _readIndex b))) by lia.
  rewrite !wrap_small by lia.
  rewrite read_range_in by lia. fold (readable b).
  set (n := Z.to_nat (8 + (_writeIndex b - _readIndex b) + reserve)).
  assert (Hn : length (replicate n Ascii.zero) = n) by apply length_replicate.
  rewrite copy_in_in by (rewrite ?Hn; lia).
  eexists. split; [reflexivity|].
  assert (Hlen : (Z.to_nat 8 + length (readable b)
                  <= length (replicate n Ascii.zero))%nat)
    by (rewrite Hn; lia).
  unfold readable at 1, wf, Capacity. cbn [_buffer _readIndex _writeIndex].
  rewrite splice_length by exact Hlen. rewrite Hn.
  split; [|unfold kPrependSize; lia].
  rewrite splice_drop by lia.
  apply take_app_length'. lia.
Qed.

(** *** Searching *)

Lemma is_char_true (c a : ascii) : is_char c a = true <-> a = c.
Proof. unfold is_char. apply Ascii.eqb_eq. Qed.

Lemma crlf_index_cons (c0 c1 : ascii) (l : list ascii) :
  crlf_index (c0 :: c1 :: l)
  = if is_char CR c0 && is_char LF c1 then Some O
    else option_map S (crlf_index (c1 :: l)).
Proof. reflexivity. Qed.

Lemma crlf_index_Some (l : list ascii) :
  forall i : nat,
    crlf_index l = Some i ->
    pair_at l i /\ forall j : nat, (j < i)%nat -> ~ pair_at l j.
Proof.
  induction l as [|c0 l IH]; intros i H; [discriminate|].
  destruct l as [|c1 l']; [discriminate|].
  rewrite crlf_index_cons in H.
  destruct (is_char CR c0 && is_char LF c1) eqn:E.
  - injection H as <-. apply andb_true_iff in E as [E0 E1].
    apply is_char_true in E0, E1. subst. split; [split; reflexivity|].
    intros j Hj. lia.
  - destruct (crlf_index (c1 :: l')) as [i'|] eqn:Hi; [|simpl in H; discriminate].
    simpl in H. injection H as <-. destruct (IH i' eq_refl) as [[H0 H1] Hfirst].
    split; [split; assumption|].
    intros [|j] Hj [Hj0 Hj1].
    + cbn in Hj0, Hj1. injection Hj0 as ->. injection Hj1 as ->.
      unfold is_char in E. rewrite !Ascii.eqb_refl in E. discriminate.
    + apply (Hfirst j); [lia | split; assumption].
Qed.

Lemma crlf_index_None (l : list ascii) :
  crlf_index l = None -> forall j : nat, ~ pair_at l j.
Proof.
  induction l as [|c0 l IH]; intros H j [Hj0 Hj1]; [discriminate|].
  destruct l as [|c1 l']; [destruct j; discriminate|].
  rewrite crlf_index_cons in H.
  destruct (is_char CR c0 && is_char LF c1) eqn:E; [discriminate|].
  destruct (crlf_index (c1 :: l')) as [i'|] eqn:Hi; [simpl in H; discriminate|].
  destruct j as [|j].
  - cbn in Hj0, Hj1. injection Hj0 as ->. injection Hj1 as ->.
    unfold is_char in E. rewrite !Ascii.eqb_refl in E. discriminate.
  - apply (IH eq_refl j). split; assumption.
Qed.

(** The loop finds the first pair of the bytes between [p] and [end_]. *)
Lemma crlf_loop_index (mem : list ascii) :
  forall p end_ : Z,
    (Z.to_nat (end_ - p) <= length mem)%nat ->
    crlf_loop mem p end_
    = Some (match crlf_index (take (Z.to_nat (end_ - p)) mem) with
            | Some i => at_offset (p + Z.of_nat i)
            | None => nullptr
            end).
Proof.
  induction mem as [|c0 mem IH]; intros p end_ Hlen.
  - simpl in Hlen. cbn [crlf_loop].
    destruct (p + 1 <? end_) eqn:E; [lia|]. rewrite take_nil. reflexivity.
  - cbn [crlf_loop]. destruct (p + 1 <? end_) eqn:E.
    + destruct mem as [|c1 mem']; [simpl in Hlen; lia|].
      replace (Z.to_nat (end_ - p)) with (S (S (Z.to_nat (end_ - p - 2)))) by lia.
      cbn [take]. rewrite crlf_index_cons.
      destruct (is_char CR c0 && is_char LF c1).
      * rewrite Z.add_0_r. reflexivity.
      * rewrite IH by (simpl in *; lia).
        replace (Z.to_nat (end_ - (p + 1))) with (S (Z.to_nat (end_ - p - 2)))
          by lia.
        cbn [take]. destruct (crlf_index _); simpl; [|reflexivity].
        do 2 f_equal. lia.
    + destruct (Z.to_nat (end_ - p)) as [|[|n]] eqn:En; [| |lia];
        reflexivity.
Qed.

Lemma find_char_Some (c : ascii) (sv : list ascii) :
  forall pos : Z,
    find_char c sv = Some pos ->
    0 <= pos /\ sv !! Z.to_nat pos = Some c /\
    forall j : nat, (j < Z.to_nat pos)%nat -> sv !! j <> Some c.
Proof.
  induction sv as [|a sv IH]; intros pos H; [discriminate|].
  cbn [find_char] in H. destruct (is_char c a) eqn:E.
  - injection H as <-. apply is_char_true in E. subst.
    split; [lia|]. split; [reflexivity|]. intros j Hj. simpl in Hj. lia.
  - destruct (find_char c sv) as [pos'|]; [|discriminate].
    injection H as <-. destruct (IH pos' eq_refl) as (H0 & Hat & Hfirst).
    split; [lia|].
    replace (Z.to_nat (pos' + 1)) with (S (Z.to_nat pos')) by lia.
    split; [exact Hat|].
    intros [|j] Hj; simpl.
    + intros [= ->]. unfold is_char in E. rewrite Ascii.eqb_refl in E.
      discriminate.
    + apply Hfirst. lia.
Qed.

Lemma find_char_None (c : ascii) (sv : list ascii) :
  find_char c sv = None -> forall j : nat, sv !! j <> Some c.
Proof.
  induction sv as [|a sv IH]; intros H j; [destruct j; discriminate|].
  cbn [find_char] in H. destruct (is_char c a) eqn:E; [discriminate|].
  destruct (find_char c sv) as [pos'|] eqn:Hf; [discriminate|].
  destruct j as [|j]; simpl.
  - intros [= ->]. unfold is_char in E. rewrite Ascii.eqb_refl in E.
    discriminate.
  - apply IH. reflexivity.
Qed.

(** A byte that is somewhere is found, at or before that place. *)
Lemma find_char_le (c : ascii) (sv : list ascii) (j : nat) :
  sv !! j = Some c ->
  exists pos : Z, find_char c sv = Some pos /\ 0 <= pos <= Z.of_nat j.
Proof.
  intros Hj. destruct (find_char c sv) as [pos|] eqn:Hf.
  - exists pos. split; [reflexivity|].
    destruct (find_char_Some c sv pos Hf) as (H0 & _ & Hfirst).
    split; [exact H0|].
    destruct (Z.le_gt_cases pos (Z.of_nat j)) as [|Hgt]; [assumption|].
    exfalso. apply (Hfirst j); [lia | exact Hj].
  - exfalso. exact (find_char_None c sv Hf j Hj).
Qed.

Lemma FindCRLF_index (b : Buffer) :
  wf b ->
  FindCRLF b
  = Some (match crlf_index (readable b) with
          | Some i => at_offset (Peek b + Z.of_nat i)
          | None => nullptr
          end).
Proof.
  intros (Hr & Hw & Hc). unfold FindCRLF, readable, Peek, BeginWrite, Capacity in *.
  apply crlf_loop_index. rewrite length_drop. lia.
Qed.

(** X1: [FindCRLF()] on a buffer that satisfies the class invariant reads
    inside the storage only.  A pointer it returns is at the first place of
    the readable bytes where a CR is followed by a LF, both readable; it
    returns [nullptr] exactly when the readable bytes hold no such pair (in
    particular when fewer than two bytes are readable). *)
Theorem FindCRLF_first_pair (b : Buffer) :
  wf b ->
  match FindCRLF b with
  | Some (at_offset p) =>
      exists i : nat,
        p = Peek b + Z.of_nat i /\ p + 1 < BeginWrite b /\
        pair_at (readable b) i /\
        forall j : nat, (j < i)%nat -> ~ pair_at (readable b) j
  | Some nullptr => forall j : nat, ~ pair_at (readable b) j
  | None => False
  end.
Proof.
  intros Hwf. rewrite (FindCRLF_index b Hwf).
  destruct (crlf_index (readable b)) as [i|] eqn:Hi.
  - destruct (crlf_index_Some _ i Hi) as [Hp Hfirst].
    exists i. split; [reflexivity|]. split; [|split; assumption].
    destruct Hp as [_ H1]. apply lookup_lt_Some in H1.
    pose proof (readable_length b Hwf). unfold Peek, BeginWrite. lia.
  - apply crlf_index_None, Hi.
Qed.

Lemma pair_at_drop (l : list ascii) (k i : nat) :
  pair_at (drop k l) i <-> pair_at l (k + i).
Proof.
  unfold pair_at. rewrite !lookup_drop.
  replace (k + S i)%nat with (S (k + i)) by lia. tauto.
Qed.

Lemma crlf_loop_done (mem : list ascii) (p end_ : Z) :
  end_ <= p + 1 -> crlf_loop mem p end_ = Some nullptr.
Proof.
  intros H. destruct mem; cbn [crlf_loop];
    destruct (p + 1 <? end_) eqn:E; (lia || reflexivity).
Qed.

(** X2: [FindCRLF(start)] returns [nullptr] when [start] is outside the
    readable bytes (before [Peek()], or at or after [BeginWrite()]);
    started at [Peek()] it returns what [FindCRLF()] returns; and from a
    [start] inside the readable bytes it returns the first CR LF pair at or
    after [start], or [nullptr] when there is none. *)
Theorem FindCRLF_from_span (b : Buffer) (start : Z) :
  wf b ->
  (start < Peek b \/ BeginWrite b <= start ->
   FindCRLF_from b start = Some nullptr) /\
  FindCRLF_from b (Peek b) = FindCRLF b /\
  (Peek b <= start < BeginWrite b ->
   match FindCRLF_from b start with
   | Some (at_offset p) =>
       exists i : nat,
         p = start + Z.of_nat i /\
         pair_at (readable b) (Z.to_nat (start - Peek b) + i) /\
         forall j : nat,
           (j < i)%nat -> ~ pair_at (readable b) (Z.to_nat (start - Peek b) + j)
   | Some nullptr =>
       forall j : nat, ~ pair_at (readable b) (Z.to_nat (start - Peek b) + j)
   | None => False
   end).
Proof.
  intros Hwf. split; [|split].
  - intros H. unfold FindCRLF_from.
    destruct ((start <? Peek b) || (BeginWrite b <=? start)) eqn:E;
      [reflexivity|].
    apply orb_false_iff in E. lia.
  - unfold FindCRLF_from, FindCRLF.
    destruct (Peek b <? Peek b) eqn:E1; [lia|]. simpl.
    destruct (BeginWrite b <=? Peek b) eqn:E2; [|reflexivity].
    symmetry. apply crlf_loop_done. lia.
  - intros Hin. unfold FindCRLF_from.
    destruct ((start <? Peek b) || (BeginWrite b <=? start)) eqn:E.
    { apply orb_true_iff in E. lia. }
    destruct Hwf as (Hr & Hw & Hc). unfold Peek, BeginWrite, Capacity in *.
    rewrite crlf_loop_index by (rewrite length_drop; lia).
    set (k := Z.to_nat (start - _readIndex b)).
    assert (Hview : take (Z.to_nat (_writeIndex b - start))
                      (drop (Z.to_nat start) (_buffer b))
                    = drop k (readable b)).
    { unfold readable. rewrite skipn_firstn_comm, drop_drop.
      f_equal; [lia | f_equal; lia]. }
    rewrite Hview.
    destruct (crlf_index (drop k (readable b))) as [i|] eqn:Hi.
    + destruct (crlf_index_Some _ i Hi) as [Hp Hfirst].
      exists i. split; [reflexivity|]. split; [apply pair_at_drop, Hp|].
      intros j Hj Hpair. apply (Hfirst j Hj), pair_at_drop, Hpair.
    + intros j Hpair. apply (crlf_index_None _ Hi j), pair_at_drop, Hpair.
Qed.

Lemma FindEOL_find (b : Buffer) :
  wf b ->
  FindEOL b
  = Some (match find_char LF (readable b) with
          | Some pos => at_offset (Peek b + pos)
          | None => nullptr
          end).
Proof.
  intros Hwf. unfold FindEOL. rewrite (ReadableBytes_wf b Hwf).
  destruct Hwf as (Hr & Hw & Hc). unfold Peek, Capacity in *.
  rewrite read_range_in by lia. fold (readable b).
  destruct (find_char LF (readable b)); reflexivity.
Qed.

(** X3: [FindEOL()] on a buffer that satisfies the class invariant returns
    the pointer to the first readable LF, and [nullptr] exactly when no
    readable byte is a LF.  When [FindCRLF()] finds a pair at [p],
    [FindEOL()] finds a LF at or before [p + 1]. *)
Theorem FindEOL_first_LF (b : Buffer) :
  wf b ->
  match FindEOL b with
  | Some (at_offset e) =>
      exists i : nat,
        e = Peek b + Z.of_nat i /\ e < BeginWrite b /\
        readable b !! i = Some LF /\
        forall j : nat, (j < i)%nat -> readable b !! j <> Some LF
  | Some nullptr => forall j : nat, readable b !! j <> Some LF
  | None => False
  end /\
  (forall p : Z,
     FindCRLF b = Some (at_offset p) ->
     exists e : Z, FindEOL b = Some (at_offset e) /\ Peek b <= e <= p + 1).
Proof.
  intros Hwf. rewrite (FindEOL_find b Hwf). split.
  - destruct (find_char LF (readable b)) as [pos|] eqn:Hf.
    + destruct (find_char_Some LF _ pos Hf) as (H0 & Hat & Hfirst).
      exists (Z.to_nat pos). split; [f_equal; lia|]. split; [|split; assumption].
      apply lookup_lt_Some in Hat. pose proof (readable_length b Hwf).
      unfold Peek, BeginWrite. lia.
    + apply find_char_None, Hf.
  - intros p Hp. rewrite (FindCRLF_index b Hwf) in Hp.
    destruct (crlf_index (readable b)) as [i|] eqn:Hi; [|discriminate].
    injection Hp as <-. destruct (crlf_index_Some _ i Hi) as [[_ H1] _].
    destruct (find_char_le LF _ (S i) H1) as (pos & Hf & Hpos).
    rewrite Hf. eexists. split; [reflexivity|]. lia.
Qed.


Lemma wf_two_lines_buffer : wf two_lines_buffer.
Proof. vm_compute. intuition congruence. Qed.

(** Instance of [FindCRLF_first_pair] on the sample buffer: the first pair
    is at offset 10, two bytes after [Peek()]. *)
Lemma FindCRLF_first_pair_witness :
  Append (new 16) two_lines = Ok tt two_lines_buffer /\
  FindCRLF two_lines_buffer = Some (at_offset 10) /\
  pair_at (readable two_lines_buffer) 2.
Proof.
  split; [reflexivity|].
  assert (HF : FindCRLF two_lines_buffer = Some (at_offset 10)) by reflexivity.
  split; [exact HF|].
  pose proof (FindCRLF_first_pair two_lines_buffer wf_two_lines_buffer) as H.
  rewrite HF in H. destruct H as (i & Hi & _ & Hp & _).
  assert (i = 2%nat) as -> by (unfold Peek in Hi; simpl in Hi; lia).
  exact Hp.
Defined.

(** Instance of [FindCRLF_from_span] on the sample buffer: from offset 12,
    after the first pair, the second pair is found at offset 14; from
    outside the readable bytes nothing is found. *)
Lemma FindCRLF_from_span_witness :
  FindCRLF_from two_lines_buffer 12 = Some (at_offset 14) /\
  FindCRLF_from two_lines_buffer 16 = Some nullptr /\
  FindCRLF_from two_lines_buffer 8 = FindCRLF two_lines_buffer /\
  pair_at (readable two_lines_buffer) 6.
Proof.
  destruct (FindCRLF_from_span two_lines_buffer 12 wf_two_lines_buffer)
    as (_ & _ & Hin).
  destruct (FindCRLF_from_span two_lines_buffer 16 wf_two_lines_buffer)
    as (Hout & Hpeek & _).
  assert (HF : FindCRLF_from two_lines_buffer 12 = Some (at_offset 14))
    by reflexivity.
  split; [exact HF|]. split; [apply Hout; right; vm_compute; congruence|].
  split; [exact Hpeek|].
  assert (Hspan : Peek two_lines_buffer <= 12 < BeginWrite two_lines_buffer)
    by (vm_compute; intuition congruence).
  specialize (Hin Hspan). rewrite HF in Hin.
  destruct Hin as (i & Hi & Hp & _).
  assert (i = 2%nat) as -> by lia. exact Hp.
Defined.

(** Instance of [FindEOL_first_LF] on the sample buffer: the first LF is at
    offset 11, right after the CR of the first pair. *)
Lemma FindEOL_first_LF_witness :
  FindEOL two_lines_buffer = Some (at_offset 11) /\
  readable two_lines_buffer !! 3%nat = Some LF /\
  exists e : Z,
    FindEOL two_lines_buffer = Some (at_offset e) /\ 8 <= e <= 10 + 1.
Proof.
  destruct (FindEOL_first_LF two_lines_buffer wf_two_lines_buffer) as [H Hrel].
  assert (HF : FindEOL two_lines_buffer = Some (at_offset 11)) by reflexivity.
  split; [exact HF|]. rewrite HF in H. destruct H as (i & Hi & _ & Hat & _).
  assert (i = 3%nat) as -> by (unfold Peek in Hi; simpl in Hi; lia).
  split; [exact Hat|]. apply (Hrel 10). reflexivity.
Defined.

(** *** Appending, in general *)

(** The copy and [HasWritten] that end [Append], once there is room. *)
Lemma Append_copy (b1 : Buffer) (data : list ascii) :
  wf b1 -> Z.of_nat (length data) <= WritableBytes b1 ->
  exists b2 : Buffer,
    match copy_in (_buffer b1) (BeginWrite b1) data with
    | Some buf =>
        Ok tt (HasWritten (mkBuffer buf (_readIndex b1) (_writeIndex b1))
                          (Z.of_nat (length data)))
    | None => Undefined
    end = Ok tt b2 /\
    readable b2 = readable b1 ++ data /\
    Capacity b2 = Capacity b1 /\
    _readIndex b2 = _readIndex b1 /\
    _writeIndex b2 = _writeIndex b1 + Z.of_nat (length data) /\
    wf b2.
Proof.
  intros Hwf1 Hwr. rewrite (WritableBytes_wf b1 Hwf1) in Hwr.
  destruct Hwf1 as (Hr & Hw & Hc). unfold BeginWrite, Capacity in *.
  rewrite copy_in_in by lia.
  set (w := Z.to_nat (_writeIndex b1)).
  assert (Hlen : (w + length data <= length (_buffer b1))%nat) by lia.
  eexists. split; [reflexivity|].
  unfold HasWritten, WritableBytes, Capacity.
  cbn [_buffer _readIndex _writeIndex].
  rewrite splice_length by exact Hlen. rewrite !wrap_small by lia.
  destruct (Z.of_nat (length data)
            <=? Z.of_nat (length (_buffer b1)) - _writeIndex b1) eqn:E; [|lia].
  cbn [_buffer _readIndex _writeIndex]. rewrite splice_length by exact Hlen.
  split; [|split; [reflexivity|split; [reflexivity|split; [reflexivity|]]]].
  - unfold readable. cbn [_buffer _readIndex _writeIndex].
    rewrite splice_drop_below by lia.
    replace (w - Z.to_nat (_readIndex b1))%nat
      with (Z.to_nat (_writeIndex b1 - _readIndex b1)) by lia.
    rewrite app_assoc.
    apply take_app_length'. rewrite length_app, length_take, length_drop. lia.
  - unfold wf, Capacity. cbn [_buffer _readIndex _writeIndex].
    rewrite splice_length by exact Hlen. lia.
Qed.

(** What [Append] does to the readable bytes, the cursors and the storage. *)
Lemma Append_effect (b : Buffer) (data : list ascii) :
  wf b -> _writeIndex b + Z.of_nat (length data) < size_t_mod ->
  exists b' : Buffer,
    Append b data = Ok tt b' /\
    readable b' = readable b ++ data /\
    Capacity b'
    = (if (Z.of_nat (length data) <=? WritableBytes b)
          || (Z.of_nat (length data) + kPrependSize
              <=? WritableBytes b + PrependableBytes b)
       then Capacity b
       else _writeIndex b + Z.of_nat (length data)) /\
    Capacity b <= Capacity b' /\
    _writeIndex b' <= _writeIndex b + Z.of_nat (length data) /\
    wf b'.
Proof.
  intros Hwf Hfit. unfold Append.
  assert (Hlen : 0 <= Z.of_nat (length data)) by lia.
  pose proof (WritableBytes_wf b Hwf) as HW.
  pose proof (ReadableBytes_wf b Hwf) as HR.
  destruct (Z.lt_ge_cases (WritableBytes b) (Z.of_nat (length data))) as [Hlt | Hge].
  - unfold EnsureWritableBytes.
    destruct (WritableBytes b <? (Z.of_nat (length data))) eqn:E; [clear E | lia].
    destruct ((Z.of_nat (length data)) <=? WritableBytes b) eqn:E1; [lia|]. cbn [orb].
    destruct (Z.le_gt_cases ((Z.of_nat (length data)) + kPrependSize)
                (WritableBytes b + PrependableBytes b)) as [Hc | Hg].
    + destruct (makeSpace_compact_keeps b (Z.of_nat (length data)) Hwf Hlen Hlt Hc)
        as (b1 & HM & Hcap & Hrd1 & Hwr1 & _ & Hrd & Hwr & Hwf1).
      rewrite HM. cbn [bind].
      destruct (Append_copy b1 data Hwf1 Hwr)
        as (b2 & -> & Hrd2 & Hcap2 & _ & Hw2 & Hwf2).
      exists b2. split; [reflexivity|]. split; [congruence|].
      destruct ((Z.of_nat (length data)) + kPrependSize <=? WritableBytes b + PrependableBytes b)
        eqn:E2; [|lia].
      split; [congruence|]. split; [lia|]. split; [|exact Hwf2].
      rewrite Hw2, Hwr1, HR.
      unfold PrependableBytes, kPrependSize in *. rewrite HW in Hc.
      destruct Hwf as (? & ? & ?). lia.
    + destruct (makeSpace_grow_keeps b (Z.of_nat (length data)) Hwf Hlen Hfit Hlt Hg)
        as (b1 & HM & Hcap & Hrd1 & Hwr1 & _ & Hrd & Hwr & Hwf1).
      rewrite HM. cbn [bind].
      destruct (Append_copy b1 data Hwf1 Hwr)
        as (b2 & -> & Hrd2 & Hcap2 & _ & Hw2 & Hwf2).
      exists b2. split; [reflexivity|]. split; [congruence|].
      destruct ((Z.of_nat (length data)) + kPrependSize <=? WritableBytes b + PrependableBytes b)
        eqn:E2; [lia|].
      split; [congruence|]. split; [lia|]. split; [|exact Hwf2].
      lia.
  - rewrite EnsureWritableBytes_enough by lia. cbn [bind].
    destruct (Append_copy b data Hwf Hge)
      as (b2 & -> & Hrd2 & Hcap2 & _ & Hw2 & Hwf2).
    exists b2. split; [reflexivity|]. split; [exact Hrd2|].
    destruct ((Z.of_nat (length data)) <=? WritableBytes b) eqn:E1; [|lia]. cbn [orb].
    split; [exact Hcap2|]. split; [lia|]. split; [|exact Hwf2].
    lia.
Qed.


(** X4: [Append(data, len)] on a buffer that satisfies the class invariant,
    [_writeIndex + len] fitting [size_t], adds the bytes at the end of the
    readable bytes and keeps the invariant.  The storage keeps its size
    when [len] bytes are writable or can be made writable by moving the
    readable bytes down; otherwise it becomes [_writeIndex + len] bytes.
    It never gets smaller. *)
Theorem Append_appends (b : Buffer) (data : list ascii) :
  wf b -> _writeIndex b + Z.of_nat (length data) < size_t_mod ->
  exists b' : Buffer,
    Append b data = Ok tt b' /\
    readable b' = readable b ++ data /\
    Capacity b'
    = (if (Z.of_nat (length data) <=? WritableBytes b)
          || (Z.of_nat (length data) + kPrependSize
              <=? WritableBytes b + PrependableBytes b)
       then Capacity b
       else _writeIndex b + Z.of_nat (length data)) /\
    Capacity b <= Capacity b' /\
    _writeIndex b' <= _writeIndex b + Z.of_nat (length data) /\
    wf b'.
Proof.
  intros Hwf Hfit.
  destruct (Append_effect b data Hwf Hfit)
    as (b' & HA & Hrd & Hcap & Hle & Hw & Hwf').
  exists b'. auto 7.
Qed.

(** Instance of [Append_appends]: a full buffer of 16 payload bytes grows
    to 34 bytes for 10 more. *)
Lemma Append_appends_witness :
  let b := HasWritten (new 16) 16 in
  let data := list_ascii_of_string "0123456789" in
  exists b' : Buffer,
    Append b data = Ok tt b' /\
    readable b' = readable b ++ data /\ Capacity b' = 34.
Proof.
  intros b data.
  destruct (Append_appends b data) as (b' & HA & Hrd & Hcap & _).
  - vm_compute. intuition congruence.
  - vm_compute. reflexivity.
  - exists b'. split; [exact HA|]. split; [exact Hrd|]. exact Hcap.
Defined.

(** X5: two [Append]s in a row leave the same readable bytes as one
    [Append] of the two ranges joined: what was readable, then the first
    range, then the second. *)
Theorem Append_twice (b : Buffer) (d1 d2 : list ascii) :
  wf b ->
  _writeIndex b + Z.of_nat (length d1) + Z.of_nat (length d2) < size_t_mod ->
  exists b1 b2 b12 : Buffer,
    Append b d1 = Ok tt b1 /\
    Append b1 d2 = Ok tt b2 /\
    Append b (d1 ++ d2) = Ok tt b12 /\
    readable b2 = readable b ++ d1 ++ d2 /\
    readable b12 = readable b2.
Proof.
  intros Hwf Hfit.
  destruct (Append_effect b d1 Hwf) as (b1 & H1 & Hr1 & _ & _ & Hw1 & Hwf1);
    [lia|].
  destruct (Append_effect b1 d2 Hwf1) as (b2 & H2 & Hr2 & _ & _ & _ & _);
    [lia|].
  destruct (Append_effect b (d1 ++ d2) Hwf) as (b12 & H12 & Hr12 & _);
    [rewrite length_app; lia|].
  exists b1, b2, b12. repeat (split; [assumption|]).
  rewrite Hr2, Hr1, Hr12, <- app_assoc. auto.
Qed.

(** Instance of [Append_twice]: "First" and " Second" appended to a buffer
    of 4 payload bytes. *)
Lemma Append_twice_witness :
  let d1 := list_ascii_of_string "First" in
  let d2 := list_ascii_of_string " Second" in
  exists b1 b2 : Buffer,
    Append (new 4) d1 = Ok tt b1 /\ Append b1 d2 = Ok tt b2 /\
    readable b2 = list_ascii_of_string "First Second".
Proof.
  intros d1 d2.
  destruct (Append_twice (new 4) d1 d2) as (b1 & b2 & _ & H1 & H2 & _ & Hr & _).
  - vm_compute. intuition congruence.
  - vm_compute. reflexivity.
  - exists b1, b2. split; [exact H1|]. split; [exact H2|]. exact Hr.
Defined.

(** *** Retrieving, in general *)

(** What [Retrieve] leaves readable. *)
Lemma readable_Retrieve (b : Buffer) (len : Z) :
  wf b -> 0 <= len ->
  readable (Retrieve b len)
  = drop (Z.to_nat (Z.min len (ReadableBytes b))) (readable b).
Proof.
  intros Hwf Hlen. pose proof (ReadableBytes_wf b Hwf) as HR.
  destruct (Z.lt_ge_cases len (ReadableBytes b)) as [Hlt | Hge].
  - rewrite (Retrieve_lt b len (wf_cursors_ok b Hwf)) by lia.
    rewrite Z.min_l by lia. unfold readable. cbn [_buffer _readIndex _writeIndex].
    destruct Hwf as (Hr & Hw & Hc).
    rewrite skipn_firstn_comm, drop_drop. f_equal; [lia | f_equal; lia].
  - rewrite (Retrieve_ge b len Hge), Z.min_r by lia.
    unfold readable at 1. simpl. rewrite Z.sub_diag. simpl.
    symmetry. apply drop_ge. pose proof (readable_length b Hwf). lia.
Qed.

(** X6: [RetrieveAsString(len)] on a buffer that satisfies the class
    invariant returns the first [min(len, ReadableBytes())] readable bytes
    and leaves the others readable: the string returned followed by what is
    still readable is what was readable. *)
Theorem RetrieveAsString_splits (b : Buffer) (len : Z) :
  wf b -> 0 <= len ->
  exists (s : string) (b' : Buffer),
    RetrieveAsString b len = Ok s b' /\
    list_ascii_of_string s
    = take (Z.to_nat (Z.min len (ReadableBytes b))) (readable b) /\
    readable b'
    = drop (Z.to_nat (Z.min len (ReadableBytes b))) (readable b) /\
    list_ascii_of_string s ++ readable b' = readable b /\
    wf b'.
Proof.
  intros Hwf Hlen. unfold RetrieveAsString.
  pose proof (ReadableBytes_wf b Hwf) as HR.
  set (n := if ReadableBytes b <? len then ReadableBytes b else len).
  assert (Hn : n = Z.min len (ReadableBytes b)).
  { unfold n. destruct (ReadableBytes b <? len) eqn:E; lia. }
  assert (HR0 : 0 <= ReadableBytes b)
    by (rewrite HR; destruct Hwf as (? & ? & ?); lia).
  assert (Hn0 : 0 <= n <= ReadableBytes b) by lia.
  assert (Hread : read_range (_buffer b) (Peek b) n
                  = Some (take (Z.to_nat n) (readable b))).
  { destruct Hwf as (Hr & Hw & Hc). unfold Peek, Capacity in *.
    rewrite read_range_in by lia. unfold readable.
    rewrite take_take. do 2 f_equal. lia. }
  rewrite Hread. eexists _, _. split; [reflexivity|].
  rewrite list_ascii_of_string_of_list_ascii, <- Hn.
  split; [reflexivity|].
  assert (Hrd : readable (Retrieve b n) = drop (Z.to_nat n) (readable b)).
  { rewrite readable_Retrieve by (assumption || lia). do 2 f_equal. lia. }
  split; [exact Hrd|]. split; [rewrite Hrd; apply take_drop|].
  apply wf_Retrieve; [exact Hwf | lia].
Qed.

(** Instance of [RetrieveAsString_splits]: 5 of the 13 bytes
    "Hello, World!". *)
Lemma RetrieveAsString_splits_witness :
  let b := mkBuffer (replicate 8 Ascii.zero
                       ++ list_ascii_of_string "Hello, World!") 8 21 in
  exists b' : Buffer,
    RetrieveAsString b 5 = Ok "Hello"%string b' /\
    readable b' = list_ascii_of_string ", World!".
Proof.
  intros b.
  destruct (RetrieveAsString_splits b 5) as (s & b' & HR & Hs & Hrd & _).
  - vm_compute. intuition congruence.
  - lia.
  - exists b'. split; [|exact Hrd].
    rewrite HR. f_equal.
    rewrite <- (string_of_list_ascii_of_string s), Hs. reflexivity.
Defined.

(** X7: on a buffer that satisfies the class invariant, [ToString()] returns
    the readable bytes and leaves the buffer as it is;
    [RetrieveAllAsString()] returns the same string, leaves nothing
    readable and puts both cursors at [kPrependSize]. *)
Theorem ToString_RetrieveAllAsString (b : Buffer) :
  wf b ->
  ToString b = Ok (string_of_list_ascii (readable b)) b /\
  RetrieveAllAsString b
  = Ok (string_of_list_ascii (readable b)) (RetrieveAll b) /\
  ReadableBytes (RetrieveAll b) = 0 /\
  PrependableBytes (RetrieveAll b) = kPrependSize /\
  WritableBytes (RetrieveAll b) = Capacity b - kPrependSize.
Proof.
  intros Hwf. split; [|split; [|split; [|split]]].
  - unfold ToString. rewrite (ReadableBytes_wf b Hwf).
    destruct Hwf as (Hr & Hw & Hc). unfold Peek, Capacity in *.
    rewrite read_range_in by lia. reflexivity.
  - apply RetrieveAsString_all, Hwf.
  - reflexivity.
  - reflexivity.
  - apply (WritableBytes_wf (RetrieveAll b)), wf_RetrieveAll, Hwf.
Qed.

(** Instance of [ToString_RetrieveAllAsString] on the sample buffer. *)
Lemma ToString_RetrieveAllAsString_witness :
  ToString two_lines_buffer
  = Ok (string_of_list_ascii two_lines) two_lines_buffer /\
  RetrieveAllAsString two_lines_buffer
  = Ok (string_of_list_ascii two_lines) (RetrieveAll two_lines_buffer).
Proof.
  destruct (ToString_RetrieveAllAsString two_lines_buffer wf_two_lines_buffer)
    as (HT & HR & _).
  split; [exact HT | exact HR].
Defined.

(** X8: [RetrieveUntil(end)] changes nothing when [end] is outside
    [Peek(), BeginWrite()]; inside, it drops the readable bytes before
    [end], and with [end == BeginWrite()] it empties the buffer.  After
    [RetrieveUntil] of the pointer that [FindCRLF()] found, the readable
    bytes start with that CR LF pair. *)
Theorem RetrieveUntil_span (b : Buffer) (end_ : Z) :
  wf b ->
  (end_ < Peek b \/ BeginWrite b < end_ -> RetrieveUntil b end_ = b) /\
  (Peek b <= end_ <= BeginWrite b ->
   readable (RetrieveUntil b end_)
   = drop (Z.to_nat (end_ - Peek b)) (readable b) /\
   wf (RetrieveUntil b end_)) /\
  RetrieveUntil b (BeginWrite b) = RetrieveAll b /\
  (FindCRLF b = Some (at_offset end_) ->
   take 2 (readable (RetrieveUntil b end_)) = [CR; LF]).
Proof.
  intros Hwf. pose proof (ReadableBytes_wf b Hwf) as HR.
  assert (Hin : Peek b <= end_ <= BeginWrite b ->
                readable (RetrieveUntil b end_)
                = drop (Z.to_nat (end_ - Peek b)) (readable b) /\
                wf (RetrieveUntil b end_)).
  { intros H. unfold RetrieveUntil.
    destruct ((Peek b <=? end_) && (end_ <=? BeginWrite b)) eqn:E.
    2:{ apply andb_false_iff in E. lia. }
    unfold Peek, BeginWrite in *.
    split; [|apply wf_Retrieve; [exact Hwf | lia]].
    rewrite readable_Retrieve by (assumption || lia). do 2 f_equal. lia. }
  split; [|split; [exact Hin|split]].
  - intros H. unfold RetrieveUntil.
    destruct ((Peek b <=? end_) && (end_ <=? BeginWrite b)) eqn:E;
      [|reflexivity].
    apply andb_true_iff in E. lia.
  - unfold RetrieveUntil, Peek, BeginWrite.
    destruct Hwf as (Hr & Hw & Hc).
    destruct (_readIndex b <=? _writeIndex b) eqn:E1; [|lia].
    destruct (_writeIndex b <=? _writeIndex b) eqn:E2; [|lia]. simpl.
    apply Retrieve_ge. lia.
  - intros HF. rewrite (FindCRLF_index b Hwf) in HF.
    destruct (crlf_index (readable b)) as [i|] eqn:Hi; [|discriminate].
    injection HF as <-. destruct (crlf_index_Some _ i Hi) as [[H0 H1] _].
    pose proof (lookup_lt_Some _ _ _ H1) as Hlt.
    pose proof (readable_length b Hwf) as HL.
    destruct Hin as [Hrd _]; [unfold Peek, BeginWrite; lia|].
    rewrite Hrd.
    replace (Z.to_nat (Peek b + Z.of_nat i - Peek b)) with i by lia.
    rewrite (drop_S _ _ _ H0), (drop_S _ _ _ H1). reflexivity.
Qed.

(** Instance of [RetrieveUntil_span] on the sample buffer: retrieving up to
    the first CR LF pair leaves the pair and the second line. *)
Lemma RetrieveUntil_span_witness :
  readable (RetrieveUntil two_lines_buffer 10)
  = [CR; LF] ++ list_ascii_of_string "cd" ++ [CR; LF] /\
  take 2 (readable (RetrieveUntil two_lines_buffer 10)) = [CR; LF] /\
  RetrieveUntil two_lines_buffer 17 = two_lines_buffer.
Proof.
  destruct (RetrieveUntil_span two_lines_buffer 10 wf_two_lines_buffer)
    as (_ & Hin & _ & Hcrlf).
  destruct (RetrieveUntil_span two_lines_buffer 17 wf_two_lines_buffer)
    as (Hout & _).
  split; [|split].
  - destruct Hin as [Hrd _]; [vm_compute; intuition congruence|].
    rewrite Hrd. reflexivity.
  - apply Hcrlf. reflexivity.
  - apply Hout. right. vm_compute. reflexivity.
Defined.

(** *** Shrinking *)

(** X9: [Shrink(reserve)] on a buffer that satisfies the class invariant,
    [kPrependSize + ReadableBytes() + reserve] fitting [size_t], keeps the
    readable bytes, makes the storage exactly that long, puts the read
    cursor back at [kPrependSize] and leaves exactly [reserve] writable
    bytes. *)
Theorem Shrink_to_fit (b : Buffer) (reserve : Z) :
  wf b -> 0 <= reserve ->
  kPrependSize + ReadableBytes b + reserve < size_t_mod ->
  exists b' : Buffer,
    Shrink b reserve = Ok tt b' /\
    readable b' = readable b /\
    Capacity b' = kPrependSize + ReadableBytes b + reserve /\
    PrependableBytes b' = kPrependSize /\
    ReadableBytes b' = ReadableBytes b /\
    WritableBytes b' = reserve /\
    wf b'.
Proof.
  intros Hwf Hres Hfit.
  destruct (Shrink_readable b reserve Hwf Hres Hfit)
    as (b' & HS & Hrd & Hcap & Hwf').
  exists b'. split; [exact HS|]. split; [exact Hrd|]. split; [exact Hcap|].
  assert (Hread : _readIndex b' = kPrependSize).
  { revert HS. unfold Shrink.
    destruct (read_range _ _ _); [|discriminate].
    destruct (copy_in _ _ _); [|discriminate].
    intros [= <-]. reflexivity. }
  pose proof (readable_length b Hwf) as HL.
  pose proof (readable_length b' Hwf') as HL'.
  rewrite (ReadableBytes_wf b Hwf) in *.
  rewrite (ReadableBytes_wf b' Hwf'), (WritableBytes_wf b' Hwf').
  unfold PrependableBytes. rewrite Hrd in HL'.
  split; [exact Hread|]. split; [lia|]. split; [lia | exact Hwf'].
Qed.

(** Instance of [Shrink_to_fit]: a buffer of 1000 payload bytes that holds
    10 bytes shrinks to 18 bytes. *)
Lemma Shrink_to_fit_witness :
  let b := HasWritten (new 1000) 10 in
  exists b' : Buffer,
    Shrink b 0 = Ok tt b' /\ Capacity b = 1008 /\ Capacity b' = 18 /\
    readable b' = readable b.
Proof.
  intros b.
  destruct (Shrink_to_fit b 0) as (b' & HS & Hrd & Hcap & _).
  - vm_compute. intuition congruence.
  - lia.
  - vm_compute. reflexivity.
  - exists b'. split; [exact HS|]. split; [reflexivity|].
    split; [exact Hcap | exact Hrd].
Defined.

(** X10: [Append] reallocates only when it must: as long as the readable
    bytes and the new bytes together fit in the storage behind the
    reserved prefix, the storage keeps its size, however far the cursors
    have moved up.  In particular a buffer that is filled and emptied
    again and again never grows. *)
Theorem Append_reuses_space (b : Buffer) (data : list ascii) :
  wf b ->
  _writeIndex b + Z.of_nat (length data) < size_t_mod ->
  ReadableBytes b + Z.of_nat (length data) <= Capacity b - kPrependSize ->
  exists b' : Buffer,
    Append b data = Ok tt b' /\
    Capacity b' = Capacity b /\
    readable b' = readable b ++ data /\
    wf b' /\
    exists b'' : Buffer,
      Append (RetrieveAll b') data = Ok tt b'' /\
      Capacity b'' = Capacity b /\ readable b'' = data.
Proof.
  intros Hwf Hsz Hfit.
  pose proof (ReadableBytes_wf b Hwf) as HR.
  pose proof (WritableBytes_wf b Hwf) as HW.
  assert (Hcond : forall b0 : Buffer,
            wf b0 ->
            ReadableBytes b0 + Z.of_nat (length data) <= Capacity b0 - kPrependSize ->
            (Z.of_nat (length data) <=? WritableBytes b0)
            || (Z.of_nat (length data) + kPrependSize
                <=? WritableBytes b0 + PrependableBytes b0) = true).
  { intros b0 Hwf0 Hfit0. apply orb_true_iff. right.
    rewrite (ReadableBytes_wf b0 Hwf0) in Hfit0.
    rewrite (WritableBytes_wf b0 Hwf0). unfold PrependableBytes.
    apply Z.leb_le. lia. }
  destruct (Append_effect b data Hwf Hsz)
    as (b' & HA & Hrd & Hcap & _ & _ & Hwf').
  rewrite (Hcond b Hwf Hfit) in Hcap.
  exists b'. split; [exact HA|]. split; [exact Hcap|]. split; [exact Hrd|].
  split; [exact Hwf'|].
  pose proof (wf_RetrieveAll b' Hwf') as Hwf0.
  assert (Hfit0 : ReadableBytes (RetrieveAll b') + Z.of_nat (length data)
                  <= Capacity (RetrieveAll b') - kPrependSize).
  { change (ReadableBytes (RetrieveAll b')) with 0.
    change (Capacity (RetrieveAll b')) with (Capacity b'). rewrite Hcap.
    destruct Hwf as (? & ? & ?). lia. }
  assert (Hsz0 : _writeIndex (RetrieveAll b') + Z.of_nat (length data)
                 < size_t_mod).
  { change (ReadableBytes (RetrieveAll b')) with 0 in Hfit0.
    change (Capacity (RetrieveAll b')) with (Capacity b') in Hfit0.
    change (_writeIndex (RetrieveAll b')) with kPrependSize.
    destruct Hwf' as (_ & _ & Hc). lia. }
  destruct (Append_effect (RetrieveAll b') data Hwf0 Hsz0)
    as (b'' & HA' & Hrd' & Hcap' & _).
  rewrite (Hcond _ Hwf0 Hfit0) in Hcap'.
  exists b''. split; [exact HA'|]. split; [rewrite Hcap'; exact Hcap|].
  rewrite Hrd'. reflexivity.
Qed.

(** Instance of [Append_reuses_space]: 6 bytes appended to a buffer of 8
    payload bytes whose 6 written bytes have all but 2 been retrieved. *)
Lemma Append_reuses_space_witness :
  let b := Retrieve (HasWritten (new 8) 6) 4 in
  let data := list_ascii_of_string "World!" in
  WritableBytes b = 2 /\
  exists b' : Buffer, Append b data = Ok tt b' /\ Capacity b' = 16.
Proof.
  intros b data. split; [reflexivity|].
  destruct (Append_reuses_space b data) as (b' & HA & Hcap & _).
  - vm_compute. intuition congruence.
  - vm_compute. reflexivity.
  - vm_compute. congruence.
  - exists b'. split; [exact HA | exact Hcap].
Defined.

(** *** No call leaves the storage *)

Lemma wf_HasWritten (b : Buffer) (len : Z) :
  wf b -> 0 <= len -> wf (HasWritten b len).
Proof.
  intros Hwf Hlen. unfold HasWritten.
  destruct (len <=? WritableBytes b) eqn:E; [|exact Hwf].
  rewrite (WritableBytes_wf b Hwf) in E.
  destruct Hwf as (Hr & Hw & Hc). unfold wf, Capacity in *.
  cbn [_buffer _readIndex _writeIndex]. rewrite wrap_small by lia. lia.
Qed.

Lemma wf_Prepend (b : Buffer) (data : list ascii) :
  wf b -> exists b' : Buffer, after (Prepend b data) = Some b' /\ wf b'.
Proof.
  intros Hwf.
  destruct (Z.lt_ge_cases (PrependableBytes b) (Z.of_nat (length data)))
    as [Hlt | Hge].
  - exists b. split; [|exact Hwf]. unfold Prepend.
    destruct (PrependableBytes b <? Z.of_nat (length data)) eqn:E;
      [reflexivity | lia].
  - rewrite (Prepend_fits b data Hwf) by lia. eexists. split; [reflexivity|].
    destruct Hwf as (Hr & Hw & Hc).
    unfold wf, PrependableBytes, Capacity in *.
    cbn [_buffer _readIndex _writeIndex].
    rewrite !length_app, length_take, length_drop. lia.
Qed.

Lemma wf_RetrieveAsString (b : Buffer) (len : Z) :
  wf b -> 0 <= len ->
  exists b' : Buffer, after (RetrieveAsString b len) = Some b' /\ wf b'.
Proof.
  intros Hwf Hlen. unfold RetrieveAsString.
  pose proof (ReadableBytes_wf b Hwf) as HR.
  set (n := if ReadableBytes b <? len then ReadableBytes b else len).
  assert (Hn : 0 <= n <= ReadableBytes b).
  { unfold n. destruct Hwf as (? & ? & ?).
    destruct (ReadableBytes b <? len) eqn:E; lia. }
  destruct Hwf as (Hr & Hw & Hc). unfold Peek, Capacity in *.
  rewrite read_range_in by lia. eexists. split; [reflexivity|].
  apply wf_Retrieve; [unfold wf, Capacity; auto | lia].
Qed.

Lemma FindCRLF_from_defined (b : Buffer) (start : Z) :
  wf b -> exists r : pointer, FindCRLF_from b start = Some r.
Proof.
  intros (Hr & Hw & Hc). unfold FindCRLF_from.
  destruct ((start <? Peek b) || (BeginWrite b <=? start)) eqn:E;
    [eexists; reflexivity|].
  apply orb_false_iff in E. unfold Peek, BeginWrite, Capacity in *.
  rewrite crlf_loop_index by (rewrite length_drop; lia).
  eexists. reflexivity.
Qed.

Lemma apply_wf (b : Buffer) (o : op) :
  wf b -> op_ok b o -> exists b' : Buffer, apply b o = Some b' /\ wf b'.
Proof.
  intros Hwf Hok. destruct o; cbn [apply op_ok] in *.
  - eexists. split; [reflexivity|]. apply wf_Retrieve; assumption.
  - eexists. split; [reflexivity|]. unfold RetrieveUntil.
    destruct ((Peek b <=? end_) && (end_ <=? BeginWrite b)) eqn:E;
      [|exact Hwf].
    apply andb_true_iff in E. apply wf_Retrieve; [exact Hwf | lia].
  - eexists. split; [reflexivity|]. apply wf_RetrieveAll, Hwf.
  - apply wf_RetrieveAsString; assumption.
  - apply wf_RetrieveAsString; [exact Hwf|].
    rewrite (ReadableBytes_wf b Hwf). destruct Hwf as (? & ? & ?). lia.
  - eexists. split; [reflexivity|]. apply wf_Retrieve; assumption.
  - exists b. split; [|exact Hwf]. unfold ToString.
    rewrite (ReadableBytes_wf b Hwf).
    destruct Hwf as (Hr & Hw & Hc). unfold Peek, Capacity in *.
    rewrite read_range_in by lia. reflexivity.
  - destruct (Append_readable b data Hwf Hok) as (b' & HA & _ & Hwf').
    exists b'. rewrite HA. auto.
  - destruct Hok as [Hlen Hfit].
    destruct (EnsureWritableBytes_ensures b len Hwf Hlen Hfit)
      as (b' & HE & _ & _ & Hwf').
    exists b'. rewrite HE. auto.
  - eexists. split; [reflexivity|]. apply wf_HasWritten; assumption.
  - apply wf_Prepend, Hwf.
  - destruct Hok as [Hres Hfit].
    destruct (Shrink_readable b reserve Hwf Hres Hfit)
      as (b' & HS & _ & _ & Hwf').
    exists b'. rewrite HS. auto.
  - exists b. rewrite (FindCRLF_index b Hwf). auto.
  - exists b. destruct (FindCRLF_from_defined b start Hwf) as [r ->]. auto.
  - exists b. rewrite (FindEOL_find b Hwf). auto.
Qed.

(** X11: starting from a buffer that satisfies the class invariant (a new
    buffer for one), no sequence of calls, their arguments being [size_t]
    values and the sizes they ask for fitting [size_t], has undefined
    behaviour: every read and every copy stays inside the storage, and the
    invariant holds at the end.  A [Prepend] that throws leaves the buffer
    usable. *)
Theorem apply_all_stays_inside (os : list op) (b : Buffer) :
  wf b -> ops_ok b os ->
  exists b' : Buffer, apply_all b os = Some b' /\ wf b'.
Proof.
  revert b. induction os as [|o os IH]; intros b Hwf Hok.
  - exists b. auto.
  - destruct Hok as [Ho Hos]. cbn [apply_all].
    destruct (apply_wf b o Hwf Ho) as (b1 & H1 & Hwf1).
    rewrite H1 in *. apply IH; assumption.
Qed.

(** Instance of [apply_all_stays_inside]: a run that grows the storage,
    retrieves, prepends too much and then enough, compacts, searches and
    shrinks. *)
Lemma apply_all_stays_inside_witness :
  let os := [op_Append two_lines; op_Append two_lines; op_Retrieve 9;
             op_Prepend (two_lines ++ two_lines ++ two_lines);
             op_Prepend [CR; LF]; op_FindCRLF;
             op_RetrieveUntil 12; op_EnsureWritableBytes 12; op_HasWritten 3;
             op_FindEOL; op_Shrink 4; op_RetrieveAsString 100] in
  exists b' : Buffer, apply_all (new 4) os = Some b' /\ wf b'.
Proof.
  intros os. apply (apply_all_stays_inside os (new 4)).
  - vm_compute. intuition congruence.
  - vm_compute. intuition congruence.
Defined.

(** *** A buffer that was moved from *)

(** X12: move construction hands the storage and the cursors to the new
    buffer.  The buffer moved from has no storage and both cursors at
    [kPrependSize]: nothing is readable, but [WritableBytes()] wraps to
    [2^64 - 8], so [EnsureWritableBytes] finds room for any [len] up to
    that and makes none, and an [Append] of even one byte writes outside
    the (empty) storage. *)
Theorem move_construct_leaves_no_storage (other : Buffer) :
  (move_construct other).1 = other /\
  ReadableBytes (move_construct other).2 = 0 /\
  Capacity (move_construct other).2 = 0 /\
  WritableBytes (move_construct other).2 = size_t_mod - kPrependSize /\
  ~ wf (move_construct other).2 /\
  (forall len : Z,
     len <= size_t_mod - kPrependSize ->
     EnsureWritableBytes (move_construct other).2 len
     = Ok tt (move_construct other).2) /\
  (forall data : list ascii,
     0 < Z.of_nat (length data) <= size_t_mod - kPrependSize ->
     Append (move_construct other).2 data = Undefined).
Proof.
  split; [destruct other; reflexivity|].
  split; [reflexivity|]. split; [reflexivity|]. split; [reflexivity|].
  split; [|split].
  - intros (_ & Hw & _). unfold Capacity, kPrependSize in Hw. simpl in Hw. lia.
  - intros len Hlen. apply EnsureWritableBytes_enough. exact Hlen.
  - intros data Hlen. unfold Append.
    rewrite EnsureWritableBytes_enough by (apply Hlen). cbn [bind].
    unfold copy_in, move_construct, BeginWrite, kPrependSize.
    cbn [snd _buffer _writeIndex length].
    destruct (0 <=? 8) eqn:E0; [|discriminate]. cbn [andb].
    destruct (8 + Z.of_nat (length data) <=? Z.of_nat 0) eqn:E;
      [apply Z.leb_le in E; clear Hlen E0; lia|].
    reflexivity.
Qed.

(** Instance of [move_construct_leaves_no_storage]: the sample buffer is
    moved from. *)
Lemma move_construct_leaves_no_storage_witness :
  let moved := (move_construct two_lines_buffer).2 in
  (move_construct two_lines_buffer).1 = two_lines_buffer /\
  WritableBytes moved = 18446744073709551608 /\
  Append moved [LF] = Undefined.
Proof.
  intros moved.
  destruct (move_construct_leaves_no_storage two_lines_buffer)
    as (Hnew & _ & _ & HW & _ & _ & HA).
  split; [exact Hnew|]. split; [exact HW|].
  apply HA. vm_compute. intuition congruence.
Defined.

End buffer_props.

(** ** Properties of the queue *)

Module block_queue_props.
Import block_queue.

Section Properties.

Context {T : Type}.

(** *** Basic facts *)

Lemma with_queue_same (q : BlockQueue T) : with_queue q (_queue q) = q.
Proof. destruct q. reflexivity. Qed.

Lemma Pop_nonempty (q : BlockQueue T) (item x : T) (rest : list T) :
  _queue q = x :: rest ->
  Pop q item = Returns (true, x) (with_queue q rest) [notify_one _condProducer].
Proof.
  intros Hq. unfold Pop, consumer_ready, take_front, Empty. rewrite Hq.
  rewrite orb_true_r, andb_false_r. reflexivity.
Qed.

Lemma Pop_closed_empty (q : BlockQueue T) (item : T) :
  _isClose q = true -> _queue q = [] -> Pop q item = Returns (false, item) q [].
Proof.
  intros Hc Hq. unfold Pop, consumer_ready, Empty. rewrite Hc, Hq. reflexivity.
Qed.

Lemma Pop_open_empty (q : BlockQueue T) (item : T) :
  _isClose q = false -> _queue q = [] -> Pop q item = Waits _condConsumer.
Proof.
  intros Hc Hq. unfold Pop, consumer_ready, Empty. rewrite Hc, Hq. reflexivity.
Qed.

(** The blocking [Pop] never calls [front()] on an empty queue. *)
Lemma Pop_defined (q : BlockQueue T) (item : T) : Pop q item <> Undefined.
Proof.
  destruct (_queue q) as [|x rest] eqn:Hq.
  - destruct (_isClose q) eqn:Hc.
    + rewrite Pop_closed_empty by assumption. discriminate.
    + rewrite Pop_open_empty by assumption. discriminate.
  - rewrite (Pop_nonempty q item x rest Hq). discriminate.
Qed.

Lemma Pop_false (q q' : BlockQueue T) (item v : T) (ns : list notification) :
  Pop q item = Returns (false, v) q' ns ->
  _isClose q = true /\ _queue q = [] /\ v = item /\ q' = q /\ ns = [].
Proof.
  destruct (_queue q) as [|x rest] eqn:Hq.
  - destruct (_isClose q) eqn:Hc.
    + rewrite Pop_closed_empty by assumption. intros [= -> -> ->]. auto.
    + rewrite Pop_open_empty by assumption. discriminate.
  - rewrite (Pop_nonempty q item x rest Hq). discriminate.
Qed.

(** Popping as many times as a prefix of the queue is long delivers that
    prefix. *)
Lemma Pop_n_prefix (l rest : list T) (q : BlockQueue T) (item : T) :
  _queue q = l ++ rest ->
  Pop_n (length l) q item = Some (l, with_queue q rest).
Proof.
  revert q item. induction l as [|x l IH]; intros q item Hq; simpl.
  - simpl in Hq. rewrite <- Hq, with_queue_same. reflexivity.
  - rewrite (Pop_nonempty q item x (l ++ rest) Hq).
    rewrite (IH (with_queue q (l ++ rest)) x eq_refl). reflexivity.
Qed.

Lemma Push_closed (q : BlockQueue T) (item : T) :
  _isClose q = true -> Push q item = Throws (runtime_error "Queue is closed") q.
Proof. intros Hc. unfold Push, producer_ready. rewrite Hc. reflexivity. Qed.

Lemma Push_open_room (q : BlockQueue T) (item : T) :
  _isClose q = false -> Size q < _capacity q ->
  Push q item = Returns tt (enqueue q item) [notify_one _condConsumer].
Proof.
  intros Hc Hr. unfold Push, producer_ready. rewrite Hc.
  destruct (Size q <? _capacity q) eqn:E; [reflexivity | lia].
Qed.

Lemma Push_open_full (q : BlockQueue T) (item : T) :
  _isClose q = false -> _capacity q <= Size q ->
  Push q item = Waits _condProducer.
Proof.
  intros Hc Hr. unfold Push, producer_ready. rewrite Hc.
  destruct (Size q <? _capacity q) eqn:E; [lia | reflexivity].
Qed.

(** What the loop of the batch pop leaves, takes and counts. *)
Lemma drain_spec (maxCount : Z) (l : list T) :
  maxCount < size_t_mod ->
  forall (count : Z) (dest : list T),
    0 <= count <= maxCount ->
    let k := Nat.min (Z.to_nat (maxCount - count)) (length l) in
    drain l count maxCount dest
    = (drop k l, count + Z.of_nat k, dest ++ take k l).
Proof.
  intros Hm. induction l as [|x l IH]; intros count dest Hc k.
  - subst k. rewrite Nat.min_0_r. simpl. rewrite Z.add_0_r, app_nil_r.
    reflexivity.
  - simpl. destruct (count <? maxCount) eqn:E.
    + rewrite wrap_small by lia. rewrite IH by lia.
      assert (Hk : k = S (Nat.min (Z.to_nat (maxCount - (count + 1))) (length l))).
      { subst k. simpl length. lia. }
      rewrite Hk. simpl. rewrite <- app_assoc. simpl.
      do 2 f_equal. lia.
    + assert (Hk : k = 0%nat) by (subst k; lia).
      rewrite Hk. simpl. rewrite Z.add_0_r, app_nil_r. reflexivity.
Qed.

(** The loop only ever removes a prefix. *)
Lemma drain_suffix (maxCount : Z) (l : list T) (count : Z) (dest : list T) :
  exists k : nat, (drain l count maxCount dest).1.1 = drop k l.
Proof.
  revert count dest. induction l as [|x l IH]; intros count dest; simpl.
  - exists 0%nat. reflexivity.
  - destruct (count <? maxCount).
    + destruct (IH (wrap (count + 1)) (dest ++ [x])) as [k Hk].
      exists (S k). exact Hk.
    + exists 0%nat. reflexivity.
Qed.

(** *** What the calls keep *)

Ltac unfold_methods :=
  unfold exec, state_after, Clear, Close, SetCapacity, Front, Back, TryPush,
    Push, Push_for, TryPop, Pop, Pop_for, Peek, Pop_batch, Flush, NotifyAll,
    take_front, enqueue, with_queue.

Ltac split_ifs :=
  repeat match goal with
    | |- context [ if ?c then _ else _ ] => destruct c eqn:?
    | |- context [ match ?l with [] => _ | _ :: _ => _ end ] => destruct l eqn:?
    | |- context [ match ?o with None => _ | Some _ => _ end ] => destruct o eqn:?
    | |- context [ let '(_, _) := ?p in _ ] => destruct p as [[? ?] ?] eqn:?
    end.

(** [_isClose] is set by [Close] and never cleared. *)
Lemma exec_closed (q : BlockQueue T) (c : call T) :
  _isClose q = true -> _isClose (exec q c) = true.
Proof.
  intros Hc. destruct c; unfold_methods; split_ifs; simpl; auto.
Qed.

Lemma run_closed (cs : list (call T)) (q : BlockQueue T) :
  _isClose q = true -> _isClose (run q cs) = true.
Proof.
  revert q. induction cs as [|c cs IH]; intros q Hc; simpl; [exact Hc|].
  apply IH, exec_closed, Hc.
Qed.

(** A closed and empty queue stays closed and empty. *)
Lemma exec_closed_empty (q : BlockQueue T) (c : call T) :
  _isClose q = true -> _queue q = [] ->
  _isClose (exec q c) = true /\ _queue (exec q c) = [].
Proof.
  intros Hc Hq. split; [apply exec_closed, Hc|].
  destruct c; unfold_methods;
    unfold fits, producer_ready, consumer_ready, Empty;
    rewrite ?Hc, ?Hq; simpl; auto.
Qed.

Lemma run_closed_empty (cs : list (call T)) (q : BlockQueue T) :
  _isClose q = true -> _queue q = [] ->
  _isClose (run q cs) = true /\ _queue (run q cs) = [].
Proof.
  revert q. induction cs as [|c cs IH]; intros q Hc Hq; simpl; [auto|].
  destruct (exec_closed_empty q c Hc Hq) as [Hc' Hq']. apply IH; assumption.
Qed.

(** *** Close, then drain *)

(** C1. The blocking [Pop] returns [false] only on a closed and empty
    queue, and returns [true] with the front element whenever the queue has
    one, closed or not.  [Close()] on a queue that holds the elements [l]
    notifies every sleeping producer and consumer; the next [length l]
    calls of [Pop] succeed and deliver [l] in order; from then on, whatever
    calls are made on the queue, every [Pop] returns [false]; and after
    [Close()], whatever calls are made, a blocking [Push] does not sleep but
    throws "Queue is closed" (and a timed [Push] returns [false]). *)
Theorem Pop_drains_after_Close (q : BlockQueue T) (item : T) :
  (forall (v : T) (q' : BlockQueue T) (ns : list notification),
     Pop q item = Returns (false, v) q' ns ->
     _isClose q = true /\ _queue q = [] /\ q' = q) /\
  (forall (x : T) (rest : list T),
     _queue q = x :: rest ->
     Pop q item
     = Returns (true, x) (with_queue q rest) [notify_one _condProducer]) /\
  (exists qc : BlockQueue T,
     Close q = Returns tt qc [notify_all _condProducer; notify_all _condConsumer] /\
     _isClose qc = true /\ _queue qc = _queue q /\
     Pop_n (length (_queue q)) qc item = Some (_queue q, with_queue qc []) /\
     (forall (cs : list (call T)) (it : T),
        let q' := run (with_queue qc []) cs in
        Pop q' it = Returns (false, it) q' []) /\
     (forall (cs : list (call T)) (x : T) (expired : bool),
        let q' := run qc cs in
        Push q' x = Throws (runtime_error "Queue is closed") q' /\
        Push_for q' x expired = Returns false q' [])).
Proof.
  split; [|split].
  - intros v q' ns H. apply Pop_false in H. tauto.
  - intros x rest Hq. apply Pop_nonempty, Hq.
  - eexists. split; [reflexivity|]. split; [reflexivity|].
    split; [reflexivity|]. split; [|split].
    + apply Pop_n_prefix. simpl. symmetry. apply app_nil_r.
    + intros cs it q'.
      destruct (run_closed_empty cs (with_queue (mkBlockQueue (_capacity q) true (_queue q)) []))
        as [Hc Hq]; [reflexivity | reflexivity |].
      apply Pop_closed_empty; assumption.
    + intros cs x expired q'.
      assert (Hc : _isClose q' = true) by (apply run_closed; reflexivity).
      split; [apply Push_closed, Hc|].
      unfold Push_for, producer_ready. rewrite Hc. reflexivity.
Qed.

(** *** First in, first out *)

Lemma pushed_queue (q q' : BlockQueue T) (m : push_method) (x : T) :
  pushed q m x = Some q' -> q' = enqueue q x.
Proof.
  destruct m; unfold pushed, TryPush, Push, Push_for.
  - destruct (_isClose q || (_capacity q <=? Size q)); [discriminate|].
    congruence.
  - destruct (producer_ready q); [|discriminate].
    destruct (_isClose q); [discriminate | congruence].
  - destruct (negb (producer_ready q)).
    + destruct expired; discriminate.
    + destruct (_isClose q); [discriminate | congruence].
Qed.

(** Pushes that succeed put their items at the back, in order. *)
Lemma pushes_queue (ps : list (push_method * T)) (q q' : BlockQueue T) :
  pushes q ps = Some q' -> q' = with_queue q (_queue q ++ ps.*2).
Proof.
  revert q. induction ps as [|[m x] ps IH]; intros q H; simpl in *.
  - injection H as <-. rewrite app_nil_r, with_queue_same. reflexivity.
  - destruct (pushed q m x) as [q1|] eqn:Hp; [|discriminate].
    apply pushed_queue in Hp. subst q1. rewrite (IH _ H).
    unfold enqueue, with_queue. simpl. rewrite <- app_assoc. reflexivity.
Qed.

(** C2. After pushes that all succeeded, made by any of [TryPush], the
    blocking [Push] and the timed [Push] with no pop in between, the queue
    holds what it held before followed by the pushed values in the order of
    the pushes, and calls of the blocking [Pop] deliver them in that order.
    When the queue was empty before the pushes, as many calls of [Pop] as
    there were pushes return [true], deliver exactly the pushed values in
    the order of the pushes, and leave the queue empty. *)
Theorem pushes_then_pops_FIFO
    (q q' : BlockQueue T) (ps : list (push_method * T)) (item : T) :
  pushes q ps = Some q' ->
  Pop_n (length (_queue q) + length ps) q' item
  = Some (_queue q ++ ps.*2, with_queue q' []) /\
  (_queue q = [] ->
   Pop_n (length ps) q' item = Some (ps.*2, with_queue q' [])).
Proof.
  intros Hp. apply pushes_queue in Hp.
  assert (Hall : Pop_n (length (_queue q ++ ps.*2)) q' item
                 = Some (_queue q ++ ps.*2, with_queue q' [])).
  { apply Pop_n_prefix. rewrite Hp. simpl. symmetry. apply app_nil_r. }
  rewrite length_app, length_fmap in Hall. split; [exact Hall|].
  intros Hq. rewrite Hq in Hall. exact Hall.
Qed.

(** *** The capacity bound *)

Lemma fits_spec (q : BlockQueue T) (range : list T) :
  range_ok q range ->
  fits q range
  = negb (_isClose q) && (Size q + Z.of_nat (length range) <=? _capacity q).
Proof.
  intros [Hint Hsz]. unfold fits, Size in *.
  rewrite to_int_small by lia. rewrite wrap_small by lia. reflexivity.
Qed.

Lemma exec_bound (q : BlockQueue T) (c : call T) :
  Size q <= _capacity q -> keeps_bound q c ->
  Size (exec q c) <= _capacity (exec q c).
Proof.
  intros Hb Hk.
  assert (Hpush : forall x : T,
            Size q < _capacity q -> Size (enqueue q x) <= _capacity (enqueue q x)).
  { intros x Hr. unfold Size, enqueue in *. simpl. rewrite length_app. simpl. lia. }
  assert (Htail : forall (x : T) (rest : list T),
            _queue q = x :: rest ->
            Size (with_queue q rest) <= _capacity (with_queue q rest)).
  { intros x rest Hq. unfold Size in *. rewrite Hq in Hb. simpl in *. lia. }
  destruct c; unfold exec.
  - (* Clear *) unfold Size in *. simpl. lia.
  - (* Close *) exact Hb.
  - (* SetCapacity *) exact Hk.
  - (* Front *) unfold Front. destruct (_queue q); exact Hb.
  - (* Back *) unfold Back. destruct (last (_queue q)); exact Hb.
  - (* TryPush *)
    unfold TryPush. destruct (_isClose q); simpl; [exact Hb|].
    destruct (_capacity q <=? Size q) eqn:E; simpl; [exact Hb|].
    apply Hpush. lia.
  - (* Push *)
    unfold Push, producer_ready. destruct (_isClose q); simpl; [exact Hb|].
    destruct (Size q <? _capacity q) eqn:E; simpl; [|exact Hb].
    apply Hpush. lia.
  - (* Push_for *)
    unfold Push_for, producer_ready. destruct (_isClose q); simpl; [exact Hb|].
    destruct (Size q <? _capacity q) eqn:E; simpl.
    + apply Hpush. lia.
    + destruct expired; exact Hb.
  - (* TryPop *)
    unfold TryPop. destruct (_queue q) as [|x rest] eqn:Hq; simpl; [exact Hb|].
    apply (Htail x rest eq_refl).
  - (* Pop *)
    unfold Pop, take_front. destruct (consumer_ready q); [|exact Hb].
    destruct (_isClose q && Empty q); [exact Hb|].
    destruct (_queue q) as [|x rest] eqn:Hq; simpl; [exact Hb|].
    apply (Htail x rest eq_refl).
  - (* Pop_for *)
    unfold Pop_for, take_front.
    destruct (negb (consumer_ready q)); [destruct expired; exact Hb|].
    destruct (_isClose q && Empty q); [exact Hb|].
    destruct (_queue q) as [|x rest] eqn:Hq; simpl; [exact Hb|].
    apply (Htail x rest eq_refl).
  - (* Peek *)
    unfold Peek.
    destruct (negb (consumer_ready q)); [destruct expired; exact Hb|].
    destruct (_isClose q && Empty q); [exact Hb|].
    destruct (_queue q); exact Hb.
  - (* Push_range *)
    simpl in Hk. rewrite (fits_spec q range Hk).
    destruct (negb (_isClose q)); simpl; [|exact Hb].
    destruct (Size q + Z.of_nat (length range) <=? _capacity q) eqn:E;
      [|exact Hb].
    unfold Size in *. simpl. rewrite length_app. lia.
  - (* Pop_batch *)
    unfold Pop_batch, state_after.
    destruct (consumer_ready q); [|exact Hb].
    destruct (drain_suffix maxCount (_queue q) 0 []) as [k Hk'].
    destruct (drain (_queue q) 0 maxCount []) as [[rest count] dest].
    simpl in *. subst rest. unfold Size in *. simpl.
    rewrite length_drop. lia.
  - (* Flush *) exact Hb.
  - (* NotifyAll *) exact Hb.
Qed.

Lemma run_bound (cs : list (call T)) (q : BlockQueue T) :
  Size q <= _capacity q -> all_keep_bound q cs ->
  Size (run q cs) <= _capacity (run q cs).
Proof.
  revert q. induction cs as [|c cs IH]; intros q Hb Hk; simpl; [exact Hb|].
  destruct Hk as [Hc Hcs]. apply IH; [apply exec_bound; assumption | exact Hcs].
Qed.

Lemma TryPush_room (q : BlockQueue T) (item : T) :
  _isClose q = false -> Size q < _capacity q ->
  TryPush q item = Returns true (enqueue q item) [notify_one _condConsumer].
Proof.
  intros Hc Hr. unfold TryPush. rewrite Hc.
  destruct (_capacity q <=? Size q) eqn:E; [lia | reflexivity].
Qed.

Lemma TryPush_full (q : BlockQueue T) (item : T) :
  _capacity q <= Size q -> TryPush q item = Returns false q [].
Proof.
  intros Hr. unfold TryPush.
  destruct (_capacity q <=? Size q) eqn:E; [|lia].
  rewrite orb_true_r. reflexivity.
Qed.

(** C4. Starting from a queue whose size is at most its capacity (a new
    queue for one), any sequence of calls in which no [SetCapacity] goes
    below the size the queue has at that moment leaves the size at most the
    capacity.  [SetCapacity], whatever its argument, changes the capacity
    and nothing else: all the elements stay.  On an open queue, a
    [SetCapacity] above the size makes the next [TryPush] succeed. *)
Theorem size_within_capacity (q : BlockQueue T) :
  (forall cs : list (call T),
     Size q <= _capacity q -> all_keep_bound q cs ->
     Size (run q cs) <= _capacity (run q cs)) /\
  (forall n : Z,
     exists ns : list notification,
       SetCapacity q n = Returns tt (mkBlockQueue n (_isClose q) (_queue q)) ns) /\
  (forall (n : Z) (item : T),
     _isClose q = false -> Size q < n ->
     let q' := exec q (call_SetCapacity n) in
     TryPush q' item = Returns true (enqueue q' item) [notify_one _condConsumer]).
Proof.
  split; [|split].
  - intros cs Hb Hk. apply run_bound; assumption.
  - intros n. eexists. reflexivity.
  - intros n item Hc Hn q'. apply TryPush_room; [exact Hc | exact Hn].
Qed.

(** *** The batch pop *)

Lemma Pop_batch_ready (q : BlockQueue T) (maxCount : Z) :
  consumer_ready q = true -> 0 <= maxCount < size_t_mod ->
  let k := Nat.min (Z.to_nat maxCount) (length (_queue q)) in
  Pop_batch q maxCount
  = Returns (Z.of_nat k, take k (_queue q)) (with_queue q (drop k (_queue q)))
            (if 0 <? Z.of_nat k then [notify_all _condProducer] else []).
Proof.
  intros Hr Hm k. unfold Pop_batch. rewrite Hr.
  rewrite drain_spec by lia. rewrite Z.sub_0_r. fold k. reflexivity.
Qed.

(** C9, amended.  The batch pop sleeps exactly while the queue is open and
    empty.  Once the queue has an element or is closed, the call removes
    the first [min(maxCount, size)] elements in one critical section,
    hands them out in order and returns their number, which is less than
    [maxCount] when the queue holds fewer, and 0 on a closed and empty
    queue; the producers are notified when the number is positive. *)
Theorem Pop_batch_takes_what_is_there (q : BlockQueue T) (maxCount : Z) :
  0 <= maxCount < size_t_mod ->
  (Pop_batch q maxCount = Waits _condConsumer <->
   _isClose q = false /\ _queue q = []) /\
  (_isClose q = true \/ _queue q <> [] ->
   let k := Nat.min (Z.to_nat maxCount) (length (_queue q)) in
   Pop_batch q maxCount
   = Returns (Z.of_nat k, take k (_queue q)) (with_queue q (drop k (_queue q)))
             (if 0 <? Z.of_nat k then [notify_all _condProducer] else [])).
Proof.
  intros Hm.
  assert (Hready : consumer_ready q = true <-> _isClose q = true \/ _queue q <> []).
  { unfold consumer_ready, Empty. destruct (_isClose q), (_queue q); simpl;
      intuition congruence. }
  split.
  - destruct (consumer_ready q) eqn:E.
    + rewrite Pop_batch_ready by assumption. split; [discriminate|].
      intros [Hc Hq]. destruct (proj1 Hready eq_refl); congruence.
    + unfold Pop_batch. rewrite E. split; [|reflexivity]. intros _.
      unfold consumer_ready, Empty in E.
      destruct (_isClose q), (_queue q); simpl in E; auto; discriminate.
  - intros H. apply Pop_batch_ready; [apply Hready, H | exact Hm].
Qed.

(** *** The consumers agree *)

Lemma TryPop_nonempty (q : BlockQueue T) (x : T) (rest : list T) :
  _queue q = x :: rest ->
  TryPop q = Returns (Some x) (with_queue q rest) [notify_one _condProducer].
Proof. intros Hq. unfold TryPop. rewrite Hq. reflexivity. Qed.

Lemma Pop_for_ready (q : BlockQueue T) (item : T) (expired : bool) :
  consumer_ready q = true -> Pop_for q item expired = Pop q item.
Proof. intros H. unfold Pop_for, Pop. rewrite H. reflexivity. Qed.

Lemma consumer_ready_nonempty (q : BlockQueue T) (x : T) (rest : list T) :
  _queue q = x :: rest -> consumer_ready q = true.
Proof.
  intros Hq. unfold consumer_ready, Empty. rewrite Hq. apply orb_true_r.
Qed.

(** X13: on a queue that has a front element, closed or not, [TryPop], the
    blocking [Pop] and the timed [Pop] all deliver that element, leave the
    same queue (the rest) and notify one producer; the batch pop of one
    element removes the same element; [Peek] and [Front] return it and
    leave the queue as it is. *)
Theorem consumers_get_the_front
    (q : BlockQueue T) (x item : T) (rest : list T) (expired : bool) :
  _queue q = x :: rest ->
  TryPop q = Returns (Some x) (with_queue q rest) [notify_one _condProducer] /\
  Pop q item = Returns (true, x) (with_queue q rest) [notify_one _condProducer] /\
  Pop_for q item expired
  = Returns (true, x) (with_queue q rest) [notify_one _condProducer] /\
  Pop_batch q 1 = Returns (1, [x]) (with_queue q rest) [notify_all _condProducer] /\
  Peek q item expired = Returns (true, x) q [] /\
  Front q = Returns x q [].
Proof.
  intros Hq. pose proof (consumer_ready_nonempty q x rest Hq) as Hready.
  assert (Hne : _isClose q && Empty q = false).
  { unfold Empty. rewrite Hq. apply andb_false_r. }
  split; [apply TryPop_nonempty, Hq|].
  split; [apply Pop_nonempty, Hq|].
  split; [rewrite Pop_for_ready by exact Hready; apply Pop_nonempty, Hq|].
  split.
  - unfold Pop_batch. rewrite Hready, Hq. cbn [drain].
    destruct rest; reflexivity.
  - split; [unfold Peek; rewrite Hready, Hne, Hq; reflexivity|].
    unfold Front. rewrite Hq. reflexivity.
Qed.

Lemma popped_front (q : BlockQueue T) (m : pop_method) (item x : T)
    (rest : list T) :
  _queue q = x :: rest -> popped q m item = Some (x, with_queue q rest).
Proof.
  intros Hq. destruct m; unfold popped.
  - rewrite (TryPop_nonempty q x rest Hq). reflexivity.
  - rewrite (Pop_nonempty q item x rest Hq). reflexivity.
  - rewrite Pop_for_ready by (apply (consumer_ready_nonempty q x rest Hq)).
    rewrite (Pop_nonempty q item x rest Hq). reflexivity.
Qed.

Lemma pops_prefix (ms : list pop_method) :
  forall (l rest : list T) (q : BlockQueue T) (item : T),
    length ms = length l -> _queue q = l ++ rest ->
    pops q ms item = Some (l, with_queue q rest).
Proof.
  induction ms as [|m ms IH]; intros [|x l] rest q item Hlen Hq;
    try discriminate; cbn [pops].
  - simpl in Hq. rewrite <- Hq, with_queue_same. reflexivity.
  - rewrite (popped_front q m item x (l ++ rest) Hq).
    rewrite (IH l rest (with_queue q (l ++ rest)) x); [reflexivity | |reflexivity].
    simpl in Hlen. lia.
Qed.

(** X14: the order of delivery does not depend on how the elements are
    pushed or popped.  After pushes that all succeeded, by whatever mix of
    [TryPush], blocking [Push] and timed [Push], as many pops as the queue
    has elements, by whatever mix of [TryPop], blocking [Pop] and timed
    [Pop], all deliver, and deliver what the queue held followed by the
    pushed values in the order of the pushes. *)
Theorem any_pushes_any_pops_FIFO
    (q q' : BlockQueue T) (ps : list (push_method * T))
    (ms : list pop_method) (item : T) :
  pushes q ps = Some q' ->
  length ms = (length (_queue q) + length ps)%nat ->
  pops q' ms item = Some (_queue q ++ ps.*2, with_queue q' []).
Proof.
  intros Hp Hlen. apply pushes_queue in Hp.
  apply pops_prefix.
  - rewrite length_app, length_fmap. exact Hlen.
  - rewrite Hp. simpl. symmetry. apply app_nil_r.
Qed.

(** *** Timed calls *)

(** X15: before its timeout has run out, the timed [Pop] does exactly what
    the blocking [Pop] does.  Once it has run out, the timed [Pop] returns
    [false] without touching the queue where the blocking [Pop] would
    sleep, and does what the blocking [Pop] does otherwise; so a timed
    [Pop] whose timeout has run out never sleeps.  The same holds for
    [Peek] with respect to sleeping. *)
Theorem Pop_for_is_Pop_until_timeout (q : BlockQueue T) (item : T) :
  Pop_for q item false = Pop q item /\
  (Pop q item = Waits _condConsumer ->
   Pop_for q item true = Returns (false, item) q [] /\
   Peek q item true = Returns (false, item) q []) /\
  (Pop q item <> Waits _condConsumer -> Pop_for q item true = Pop q item) /\
  (forall cv : condition_variable,
     Pop_for q item true <> Waits cv /\ Peek q item true <> Waits cv).
Proof.
  unfold Pop_for, Peek, Pop, consumer_ready, Empty, take_front.
  destruct (_isClose q), (_queue q); simpl;
    repeat split; intros; try discriminate; try congruence; auto.
Qed.

(** X16: the timed [Push] accepts an element exactly when the blocking
    [Push] does, with the same effect; where the blocking [Push] throws
    because the queue is closed the timed [Push] returns [false]; where the
    blocking [Push] sleeps the timed [Push] sleeps too until its timeout
    has run out, and then returns [false].  In neither failure is the queue
    touched. *)
Theorem Push_for_is_Push_with_false
    (q : BlockQueue T) (item : T) (expired : bool) :
  (forall (q' : BlockQueue T) (ns : list notification),
     Push q item = Returns tt q' ns ->
     Push_for q item expired = Returns true q' ns /\
     TryPush q item = Returns true q' ns) /\
  (forall (e : exn) (q' : BlockQueue T),
     Push q item = Throws e q' ->
     Push_for q item expired = Returns false q [] /\
     TryPush q item = Returns false q []) /\
  (forall cv : condition_variable,
     Push q item = Waits cv ->
     Push_for q item false = Waits cv /\
     Push_for q item true = Returns false q [] /\
     TryPush q item = Returns false q []).
Proof.
  unfold Push, Push_for, TryPush, producer_ready.
  destruct (_isClose q) eqn:Hc; cbn [orb negb].
  - split; [discriminate|]. split; [auto|]. discriminate.
  - destruct (Size q <? _capacity q) eqn:E; cbn [negb].
    + destruct (_capacity q <=? Size q) eqn:E'; [lia|].
      split; [intros q' ns [= <- <-]; auto|]. split; discriminate.
    + destruct (_capacity q <=? Size q) eqn:E'; [|lia].
      split; [discriminate|]. split; [discriminate|].
      intros cv [= <-]. auto.
Qed.

(** *** Front and Back *)

(** X17: [Front] and [Back] throw "Queue is empty" exactly on an empty queue
    and never change the queue.  After an element has been put at the
    back, [Back] returns that element, and [Front] returns it only if the
    queue was empty, the old front otherwise. *)
Theorem Front_Back_ends (q : BlockQueue T) (x : T) :
  (Front q = Throws (runtime_error "Queue is empty") q <-> _queue q = []) /\
  (Back q = Throws (runtime_error "Queue is empty") q <-> _queue q = []) /\
  Back (enqueue q x) = Returns x (enqueue q x) [] /\
  (_queue q = [] -> Front (enqueue q x) = Returns x (enqueue q x) []) /\
  (forall (y : T) (rest : list T),
     _queue q = y :: rest ->
     Front q = Returns y q [] /\
     Front (enqueue q x) = Returns y (enqueue q x) []).
Proof.
  split; [|split; [|split; [|split]]].
  - unfold Front. destruct (_queue q); split; (reflexivity || discriminate).
  - unfold Back. destruct (_queue q) as [|y l] eqn:Hq.
    + split; reflexivity.
    + destruct (last (y :: l)) eqn:Hl; [split; discriminate|].
      apply last_None in Hl. discriminate.
  - unfold Back, enqueue. simpl. rewrite last_snoc. reflexivity.
  - intros Hq. unfold Front, enqueue. simpl. rewrite Hq. reflexivity.
  - intros y rest Hq. unfold Front, enqueue. simpl. rewrite Hq. auto.
Qed.

(** *** A closed queue *)

Lemma suffix_same (q q' : BlockQueue T) :
  _queue q' = _queue q -> exists k : nat, _queue q' = drop k (_queue q).
Proof. intros ->. exists 0%nat. reflexivity. Qed.

Lemma suffix_tail (q : BlockQueue T) (x : T) (rest : list T) (q' : BlockQueue T) :
  _queue q = x :: rest -> _queue q' = rest ->
  exists k : nat, _queue q' = drop k (_queue q).
Proof. intros Hq ->. exists 1%nat. rewrite Hq. reflexivity. Qed.

Lemma exec_closed_suffix (q : BlockQueue T) (c : call T) :
  _isClose q = true -> exists k : nat, _queue (exec q c) = drop k (_queue q).
Proof.
  intros Hc.
  destruct c; unfold exec.
  - exists (length (_queue q)). simpl. rewrite drop_all. reflexivity.
  - apply suffix_same. reflexivity.
  - apply suffix_same. reflexivity.
  - apply suffix_same. unfold Front.
    destruct (_queue q) eqn:Hq; simpl; rewrite ?Hq; reflexivity.
  - apply suffix_same. unfold Back. destruct (last (_queue q)); reflexivity.
  - apply suffix_same. unfold TryPush. rewrite Hc. reflexivity.
  - apply suffix_same. rewrite Push_closed by exact Hc. reflexivity.
  - apply suffix_same. unfold Push_for, producer_ready. rewrite Hc. reflexivity.
  - destruct (_queue q) as [|x rest] eqn:Hq.
    + rewrite <- Hq. apply suffix_same. unfold TryPop. rewrite Hq. simpl. exact Hq.
    + rewrite <- Hq. apply (suffix_tail q x rest); [exact Hq|].
      rewrite (TryPop_nonempty q x rest Hq). reflexivity.
  - destruct (_queue q) as [|x rest] eqn:Hq.
    + rewrite <- Hq. apply suffix_same.
      rewrite (Pop_closed_empty q item Hc Hq). simpl. reflexivity.
    + rewrite <- Hq. apply (suffix_tail q x rest); [exact Hq|].
      rewrite (Pop_nonempty q item x rest Hq). reflexivity.
  - assert (Hr : consumer_ready q = true)
      by (unfold consumer_ready; rewrite Hc; reflexivity).
    rewrite Pop_for_ready by exact Hr.
    destruct (_queue q) as [|x rest] eqn:Hq.
    + rewrite <- Hq. apply suffix_same.
      rewrite (Pop_closed_empty q item Hc Hq). simpl. reflexivity.
    + rewrite <- Hq. apply (suffix_tail q x rest); [exact Hq|].
      rewrite (Pop_nonempty q item x rest Hq). reflexivity.
  - apply suffix_same. unfold Peek.
    destruct (negb (consumer_ready q)); [destruct expired; reflexivity|].
    destruct (_isClose q && Empty q); [reflexivity|].
    destruct (_queue q) eqn:Hq; simpl; rewrite ?Hq; reflexivity.
  - apply suffix_same. unfold fits. rewrite Hc. reflexivity.
  - unfold Pop_batch, state_after.
    destruct (consumer_ready q); [|apply suffix_same; reflexivity].
    destruct (drain_suffix maxCount (_queue q) 0 []) as [k Hk].
    destruct (drain (_queue q) 0 maxCount []) as [[rest count] dest].
    exists k. exact Hk.
  - apply suffix_same. reflexivity.
  - apply suffix_same. reflexivity.
Qed.

(** X18: once the queue is closed, no call reopens it and no call adds an
    element: after any sequence of calls the queue is still closed and
    holds a suffix of what it held when it was closed. *)
Theorem closed_queue_only_drains (cs : list (call T)) (q : BlockQueue T) :
  _isClose q = true ->
  _isClose (run q cs) = true /\
  exists k : nat, _queue (run q cs) = drop k (_queue q).
Proof.
  intros Hc. split; [apply run_closed, Hc|].
  revert q Hc. induction cs as [|c cs IH]; intros q Hc.
  - exists 0%nat. reflexivity.
  - destruct (exec_closed_suffix q c Hc) as [k1 Hk1].
    destruct (IH (exec q c) (exec_closed q c Hc)) as [k2 Hk2].
    exists (k1 + k2)%nat. change (run q (c :: cs)) with (run (exec q c) cs).
    rewrite Hk2, Hk1. apply drop_drop.
Qed.

(** *** Batches and single calls *)

(** X19: the batch pop does what single pops do: once the queue has an
    element or is closed, [Pop(dest, maxCount)] hands out the values, and
    leaves the queue, that as many blocking [Pop]s as it counts would. *)
Theorem Pop_batch_is_Pops (q : BlockQueue T) (maxCount : Z) (item : T) :
  consumer_ready q = true -> 0 <= maxCount < size_t_mod ->
  exists (xs : list T) (q' : BlockQueue T) (ns : list notification),
    Pop_batch q maxCount = Returns (Z.of_nat (length xs), xs) q' ns /\
    Pop_n (length xs) q item = Some (xs, q') /\
    xs ++ _queue q' = _queue q /\
    (length xs < Z.to_nat maxCount -> _queue q' = [])%nat.
Proof.
  intros Hr Hm. rewrite (Pop_batch_ready q maxCount Hr Hm).
  set (k := Nat.min (Z.to_nat maxCount) (length (_queue q))).
  assert (Hlen : length (take k (_queue q)) = k)
    by (rewrite length_take; lia).
  eexists _, _, _. rewrite Hlen. split; [reflexivity|].
  split; [|split].
  - rewrite <- Hlen at 1. apply Pop_n_prefix. symmetry. apply take_drop.
  - apply take_drop.
  - intros Hlt. simpl. apply drop_ge. lia.
Qed.

End Properties.

(** Instance of [Pop_drains_after_Close]: a queue that holds 1, 2, 3 is
    closed. *)
Lemma Pop_drains_after_Close_witness :
  let q := mkBlockQueue 5 false [1; 2; 3] in
  exists qc : BlockQueue Z,
    Close q = Returns tt qc [notify_all _condProducer; notify_all _condConsumer] /\
    Pop_n 3 qc 0 = Some ([1; 2; 3], with_queue qc []) /\
    Pop (with_queue qc []) 0 = Returns (false, 0) (with_queue qc []) [] /\
    Push qc 4 = Throws (runtime_error "Queue is closed") qc.
Proof.
  intros q.
  destruct (Pop_drains_after_Close q 0)
    as (_ & _ & qc & HC & _ & _ & Hn & Hpop & Hpush).
  exists qc. split; [exact HC|]. split; [exact Hn|].
  split; [exact (Hpop [] 0) | exact (proj1 (Hpush [] 4 false))].
Defined.

(** Instance of [pushes_then_pops_FIFO]: three pushes, one by each
    method, into a new queue of capacity 5. *)
Lemma pushes_then_pops_FIFO_witness :
  let ps := [(by_TryPush, 1); (by_Push, 2); (by_Push_for false, 3)] in
  exists q' : BlockQueue Z,
    pushes (new 5) ps = Some q' /\
    Pop_n 3 q' 0 = Some ([1; 2; 3], with_queue q' []).
Proof.
  intros ps. eexists. split; [reflexivity|].
  apply (pushes_then_pops_FIFO (new 5) _ ps 0); reflexivity.
Defined.

(** The scenario of the specification: a queue of capacity 3 filled with
    1, 2, 3 refuses 4, and takes it once the capacity is 5. *)
Example SetCapacity_reenables_TryPush :
  let q := run (new 3) [call_TryPush 1; call_TryPush 2; call_TryPush 3] in
  _queue q = [1; 2; 3] /\
  TryPush q 4 = Returns false q [] /\
  let q' := exec q (call_SetCapacity 5) in
  TryPush q' 4
  = Returns true (mkBlockQueue 5 false [1; 2; 3; 4]) [notify_one _condConsumer].
Proof. vm_compute. auto. Qed.

(** Instance of [size_within_capacity] on that scenario, followed by a
    shrink to the current size. *)
Lemma size_within_capacity_witness :
  let cs := [call_TryPush 1; call_TryPush 2; call_TryPush 3; call_TryPush 4;
             call_SetCapacity 5; call_TryPush 4; call_SetCapacity 4] in
  _queue (run (new 3) cs) = [1; 2; 3; 4] /\
  Size (run (new 3) cs) <= _capacity (run (new 3) cs) /\
  TryPush (exec (mkBlockQueue 3 false [1; 2; 3]) (call_SetCapacity 5)) 4
  = Returns true (mkBlockQueue 5 false [1; 2; 3; 4]) [notify_one _condConsumer].
Proof.
  intros cs. split; [reflexivity|]. split.
  - apply (size_within_capacity (new 3)).
    + vm_compute. congruence.
    + vm_compute. intuition congruence.
  - apply (size_within_capacity (mkBlockQueue 3 false [1; 2; 3])).
    + reflexivity.
    + vm_compute. reflexivity.
Defined.

(** C9, counterexample.  On a closed and empty queue the batch pop does not
    wait for an element: it returns 0 at once. *)
Lemma Pop_batch_closed_empty_returns :
  let q := mkBlockQueue 10 true ([] : list Z) in
  _queue q = [] /\ Pop_batch q 5 = Returns (0, []) q [].
Proof. split; reflexivity. Qed.

(** Instance of [Pop_batch_takes_what_is_there]: three elements in the
    queue, five asked for. *)
Lemma Pop_batch_takes_what_is_there_witness :
  let q := run (new 10) [call_TryPush 1; call_TryPush 2; call_TryPush 3] in
  Pop_batch q 5
  = Returns (3, [1; 2; 3]) (mkBlockQueue 10 false []) [notify_all _condProducer].
Proof.
  intros q.
  destruct (Pop_batch_takes_what_is_there q 5) as [_ H].
  - vm_compute. intuition congruence.
  - apply H. right. discriminate.
Defined.


(** Instance of [consumers_get_the_front]: a closed queue that holds 7, 8. *)
Lemma consumers_get_the_front_witness :
  let q := mkBlockQueue 4 true [7; 8] in
  TryPop q = Returns (Some 7) (mkBlockQueue 4 true [8]) [notify_one _condProducer] /\
  Pop_for q 0 true = Returns (true, 7) (mkBlockQueue 4 true [8]) [notify_one _condProducer] /\
  Peek q 0 true = Returns (true, 7) q [].
Proof.
  intros q.
  destruct (consumers_get_the_front q 7 0 [8] true eq_refl)
    as (H1 & _ & H3 & _ & H5 & _).
  split; [exact H1|]. split; [exact H3 | exact H5].
Defined.

(** Instance of [any_pushes_any_pops_FIFO]: three pushes and three pops,
    one by each method. *)
Lemma any_pushes_any_pops_FIFO_witness :
  let ps := [(by_TryPush, 1); (by_Push, 2); (by_Push_for true, 3)] in
  let ms := [by_Pop_for true; by_TryPop; by_Pop] in
  exists q' : BlockQueue Z,
    pushes (new 5) ps = Some q' /\
    pops q' ms 0 = Some ([1; 2; 3], with_queue q' []).
Proof.
  intros ps ms. eexists. split; [reflexivity|].
  apply (any_pushes_any_pops_FIFO (new 5) _ ps ms 0); reflexivity.
Defined.

(** Instance of [Pop_for_is_Pop_until_timeout]: on an open and empty queue
    the blocking [Pop] sleeps and the timed one returns [false] at its
    timeout. *)
Lemma Pop_for_is_Pop_until_timeout_witness :
  let q := new 5 : BlockQueue Z in
  Pop q 0 = Waits _condConsumer /\
  Pop_for q 0 false = Waits _condConsumer /\
  Pop_for q 0 true = Returns (false, 0) q [].
Proof.
  intros q.
  destruct (Pop_for_is_Pop_until_timeout q 0) as (Hsame & Hwait & _).
  assert (HP : Pop q 0 = Waits _condConsumer) by reflexivity.
  split; [exact HP|]. split; [rewrite Hsame; exact HP|].
  apply Hwait, HP.
Defined.

(** Instance of [Push_for_is_Push_with_false]: a full queue, then the same
    queue closed. *)
Lemma Push_for_is_Push_with_false_witness :
  let q := mkBlockQueue 1 false [7] in
  let qc := mkBlockQueue 1 true [7] in
  Push_for q 8 false = Waits _condProducer /\
  Push_for q 8 true = Returns false q [] /\
  Push_for qc 8 false = Returns false qc [].
Proof.
  intros q qc.
  destruct (Push_for_is_Push_with_false q 8 false) as (_ & _ & Hw).
  destruct (Push_for_is_Push_with_false qc 8 false) as (_ & Ht & _).
  destruct (Hw _condProducer eq_refl) as (H1 & H2 & _).
  split; [exact H1|]. split; [exact H2|].
  apply (Ht (runtime_error "Queue is closed") qc eq_refl).
Defined.

(** Instance of [Front_Back_ends]: 10, 20 in the queue, 30 is pushed. *)
Lemma Front_Back_ends_witness :
  let q := mkBlockQueue 5 false [10; 20] in
  Front (enqueue q 30) = Returns 10 (enqueue q 30) [] /\
  Back (enqueue q 30) = Returns 30 (enqueue q 30) [] /\
  Front (new 5 : BlockQueue Z) = Throws (runtime_error "Queue is empty") (new 5).
Proof.
  intros q.
  destruct (Front_Back_ends q 30) as (_ & _ & HB & _ & HF).
  destruct (Front_Back_ends (new 5 : BlockQueue Z) 0) as (HE & _).
  split; [apply (HF 10 [20] eq_refl)|]. split; [exact HB|].
  apply HE. reflexivity.
Defined.

(** Instance of [closed_queue_only_drains]: pushes of every kind, a pop and
    a capacity change on a closed queue that holds three elements. *)
Lemma closed_queue_only_drains_witness :
  let q := mkBlockQueue 5 true [1; 2; 3] in
  let cs := [call_TryPush 4; call_Pop 0; call_SetCapacity 9;
             call_Push_range [5; 6]; call_Push_for 7 false] in
  run q cs = mkBlockQueue 9 true [2; 3] /\
  exists k : nat, _queue (run q cs) = drop k [1; 2; 3].
Proof.
  intros q cs. split; [reflexivity|].
  apply (closed_queue_only_drains cs q). reflexivity.
Defined.

(** Instance of [Pop_batch_is_Pops]: five asked of a queue that holds
    three. *)
Lemma Pop_batch_is_Pops_witness :
  let q := mkBlockQueue 10 false [1; 2; 3] in
  exists (xs : list Z) (q' : BlockQueue Z) (ns : list notification),
    Pop_batch q 5 = Returns (Z.of_nat (length xs), xs) q' ns /\
    Pop_n (length xs) q 0 = Some (xs, q') /\ _queue q' = [].
Proof.
  intros q.
  destruct (Pop_batch_is_Pops q 5 0) as (xs & q' & ns & HB & HP & Happ & He).
  - reflexivity.
  - vm_compute. intuition congruence.
  - exists xs, q', ns. split; [exact HB|]. split; [exact HP|].
    apply He. apply (f_equal (@length Z)) in Happ.
    rewrite length_app in Happ. simpl in Happ. lia.
Defined.

End block_queue_props.
